(** * slice_utils: the iterator-sequence combinators of [seqencer.go]

    A shallow embedding of the Go 1.23 [iter.Seq] combinators of the package
    and the properties its design document states about them.

    A Go [iter.Seq[A]] is a function [func(yield func(A) bool)].  The
    closures of this package capture mutable objects (the [map] of
    [DuplicateSeq] and of [DeduplicationSeq]) and their upstream source may
    have effects of its own, so a sequence is embedded as a state
    transformer over an explicit [World].

    A loop [for v := range s { body }] is the call [s(func(v) bool { body;
    return true })], in which a [return] or [break] of the body makes the
    function answer [false]; the variables that the body assigns are
    threaded through the calls as the accumulator of the loop.

    Values of a [comparable] type are compared with Leibniz equality and
    [cmp.Ordered] is taken with a total order, which leaves the NaN of the
    floating-point types out. *)

From Stdlib Require Import ZArith Lia.
From stdpp Require Import gmap strings list fin_maps sorting pretty.

Local Open Scope Z_scope.

(** ** Go's [int] (64-bit platforms): two's complement, wrapping on overflow *)

Module Int.
Definition max_int : Z := 2 ^ 63 - 1.
Definition wrap (z : Z) : Z := (z + 2 ^ 63) mod 2 ^ 64 - 2 ^ 63.
Definition add (a b : Z) : Z := wrap (a + b).
End Int.

(** ** The world: heap objects captured by closures, and what was observed *)

Section Engine.
Context {V : Type} `{Countable V} {E : Type}.

(** [count_tables] holds the [map[V]int] objects allocated by
    [DuplicateSeq], [seen_sets] the [map[V]bool] objects allocated by
    [DeduplicationSeq]; a closure refers to its map by index, as a Go
    closure refers to it by pointer.  [pulled] logs the elements an
    observed source has handed out, [entropy] counts the map iterations
    started so far (Go picks the order of each one afresh). *)
Record World : Type := mkWorld {
  count_tables : list (gmap V Z);
  seen_sets : list (gmap V bool);
  pulled : list E;
  entropy : nat
}.

Definition M (A : Type) : Type := World → A * World.

Definition ret {A} (a : A) : M A := λ w, (a, w).
Definition bind {A B} (c : M A) (k : A → M B) : M B :=
  λ w, let (a, w') := c w in k a w'.

(** A visitor is the [yield] callback together with the local variables
    [R] of whoever wrote it; it answers [true] to continue. *)
Definition Visitor (A R : Type) : Type := A → R → M (bool * R).
Definition Seq (A : Type) : Type := ∀ R : Type, Visitor A R → R → M R.
End Engine.

Arguments World V {_ _} E.
Arguments M V {_ _} E A.
Arguments Visitor V {_ _} E A R.
Arguments Seq V {_ _} E A.

Notation "x <- c ;; k" := (bind c (λ x, k))
  (at level 20, c at level 99, k at level 200, only parsing).
Notation "' p <- c ;; k" := (bind c (λ x, let 'p := x in k))
  (at level 20, p pattern, c at level 99, k at level 200, only parsing).
Notation "c ;; k" := (bind c (λ _, k))
  (at level 100, k at level 200, right associativity, only parsing).

(** Running a [ret] that has reached its world. *)
Ltac run_ret :=
  repeat match goal with
    | |- context [ret ?a ?w] => change (ret a w) with (a, w)
    end;
  cbv beta iota.

Section Heap.
Context {V : Type} `{Countable V} {E : Type}.
#[local] Abbreviation W := (World V E).
#[local] Abbreviation M := (M V E).

(** A world in which nothing has been allocated or observed yet. *)
Definition fresh_world : W := mkWorld [] [] [] 0.

Definition set_count_table (m : nat) (t : gmap V Z) (w : W) : W :=
  mkWorld (<[m := t]> (count_tables w)) (seen_sets w) (pulled w) (entropy w).
Definition set_seen_set (m : nat) (t : gmap V bool) (w : W) : W :=
  mkWorld (count_tables w) (<[m := t]> (seen_sets w)) (pulled w) (entropy w).
(** The world after an observed source has handed out [l]. *)
Definition logged (l : list E) (w : W) : W :=
  mkWorld (count_tables w) (seen_sets w) (pulled w ++ l) (entropy w).

(** [m := map[V]int{}] *)
Definition new_count_table : M nat := λ w,
  (length (count_tables w),
   mkWorld (count_tables w ++ [∅]) (seen_sets w) (pulled w) (entropy w)).
Definition load_count_table (m : nat) : M (gmap V Z) := λ w,
  (default ∅ (count_tables w !! m), w).
Definition store_count_table (m : nat) (t : gmap V Z) : M unit := λ w,
  (tt, set_count_table m t w).

(** [m := map[V]bool{}] *)
Definition new_seen_set : M nat := λ w,
  (length (seen_sets w),
   mkWorld (count_tables w) (seen_sets w ++ [∅]) (pulled w) (entropy w)).
Definition load_seen_set (m : nat) : M (gmap V bool) := λ w,
  (default ∅ (seen_sets w !! m), w).
Definition store_seen_set (m : nat) (t : gmap V bool) : M unit := λ w,
  (tt, set_seen_set m t w).

Definition log_pulls (l : list E) : M unit := λ w, (tt, logged l w).
Definition log_pull (v : E) : M unit := log_pulls [v].
Definition next_entropy : M nat := λ w,
  (entropy w, mkWorld (count_tables w) (seen_sets w) (pulled w) (S (entropy w))).
End Heap.

(** ** The sequence protocol *)

(** What [fmt] and the type switch of [PatternSeq] and [StringPatternSeq]
    see of an element: a [string], a [fmt.Stringer] (with the text its
    [String] method returns) or anything else (with the text
    [fmt.Sprintf("%v", o)] returns). *)
Inductive TypeSwitch : Type :=
  | CaseString (o : string)
  | CaseStringer (o_String : string)
  | CaseDefault (sprintf_v : string).

Class Dynamic (S : Type) : Type := type_switch : S → TypeSwitch.

(** A [string] is its own text; an [int] is no [fmt.Stringer], and
    [fmt.Sprintf("%v", o)] prints it in decimal. *)
#[export] Instance string_Dynamic : Dynamic string := CaseString.
#[export] Instance int_Dynamic : Dynamic Z := λ o, CaseDefault (pretty o).

(** [cmp.Ordered] as far as [SumSeq] and [SumFuncSeq] use it: the zero
    value, [+=] and [<]. *)
Class Ordered (T : Type) : Type := {
  zero : T;
  plus : T → T → T;
  less : T → T → bool
}.

(** Values are in ascending order when no later one is [<] an earlier one. *)
Definition ascending {T} `{Ordered T} (x y : T) : Prop := less y x = false.

#[export] Instance ascending_dec {T} `{Ordered T} (x y : T) :
  Decision (ascending x y) := decide (less y x = false).

(** [int]: [+=] wraps around. *)
#[export] Instance int_Ordered : Ordered Z :=
  {| zero := 0; plus := Int.add; less := Z.ltb |}.

(** [string]: [+=] concatenates, [<] compares byte by byte. *)
#[export] Instance string_Ordered : Ordered string :=
  {| zero := EmptyString; plus := String.append; less := String.ltb |}.

(** The interface value [any(v)]: a value together with its dynamic type. *)
Definition any : Type := { T : Type & T }.
Definition to_any {S : Type} (v : S) : any := existT S v.

Section Protocol.
Context {V : Type} `{Countable V} {E : Type}.
#[local] Abbreviation M := (M V E).
#[local] Abbreviation Seq := (Seq V E).
#[local] Abbreviation Visitor := (Visitor V E).

(** [for _, v := range l { if !yield(v) { return } }] *)
Fixpoint range_slice {A R} (l : list A) (yield : Visitor A R) (r : R) : M R :=
  match l with
  | [] => ret r
  | v :: l' =>
      '(continue, r') <- yield v r ;;
      if continue : bool then range_slice l' yield r' else ret r'
  end.

(** [slices.Values]: the restartable, slice-backed source of the tests. *)
Definition Values {A} (l : list A) : Seq A :=
  λ R yield r, range_slice l yield r.

(** A source that reports every element it hands out before handing it
    out; it makes the consumption of an upstream source observable. *)
Definition Observed (s : Seq E) : Seq E :=
  λ R yield r, s R (λ v r, log_pull v ;; yield v r) r.

(** [slices.Collect]: [for v := range seq { s = append(s, v) }]. *)
Definition Collect {A} (s : Seq A) : M (list A) :=
  s (list A) (λ v acc, ret (true, acc ++ [v])) [].

(** The visitor of [TestEarlyTermination]: it records the call and
    answers [false]. *)
Definition stop {A} : Visitor A (list A) :=
  λ v calls, ret (false, calls ++ [v]).

(** *** Filtering combinators *)

(** Constructing a combinator is a computation of its own: it returns the
    closure, after allocating what the closure captures. *)
Definition FilterSeq {S} (s : Seq S) (fn : S → bool) : M (Seq S) :=
  ret (λ R yield r,
    s R (λ v r, if fn v then yield v r else ret (true, r)) r).

(** The inner loop drives [g] anew for every element of [s]; its variable
    is [found], and its [break] answers [false] to [g]. *)
Definition RemoveSeq (s g : Seq V) : M (Seq V) :=
  ret (λ R yield r,
    s R (λ v1 r,
      found <- g bool (λ v2 found,
                 if decide (v1 = v2) then ret (false, true)
                 else ret (true, found)) false ;;
      if negb found then yield v1 r else ret (true, r)) r).

(** [switch o := any(v).(type)] *)
Definition txt {S} `{Dynamic S} (v : S) : string :=
  match type_switch v with
  | CaseString o => o
  | CaseStringer o_String => o_String
  | CaseDefault sprintf_v => sprintf_v
  end.

Section Regexp.
(** [*regexp.Regexp] and its [MatchString] belong to Go's library. *)
Context {Regexp : Type}.
Variable MatchString : Regexp → string → bool.

Definition PatternSeq {S} `{Dynamic S} (s : Seq S) (pattern : Regexp) : M (Seq S) :=
  ret (λ R yield r,
    s R (λ v r,
      if MatchString pattern (txt v) then yield v r else ret (true, r)) r).
End Regexp.

Definition StringPatternSeq {S} `{Dynamic S} (s : Seq S) (pattern : string) : M (Seq S) :=
  ret (λ R yield r,
    s R (λ v r,
      if decide (txt v = pattern) then yield v r else ret (true, r)) r).

(** *** Set and counting combinators *)

(** The body of the loop of [DuplicateSeq]; [m] is the captured map. *)
Definition DuplicateSeq_body {R} (m : nat) (yield : Visitor V R) : Visitor V R :=
  λ v r,
    t <- load_count_table m ;;
    match t !! v with
    | Some cnt =>
        store_count_table m (<[v := Int.add cnt 1]> t) ;;
        if decide (cnt = 1) then yield v r else ret (true, r)
    | None =>
        store_count_table m (<[v := 1]> t) ;;
        ret (true, r)
    end.

Definition DuplicateSeq (s : Seq V) : M (Seq V) :=
  m <- new_count_table ;;
  ret (λ R yield r, s R (DuplicateSeq_body m yield) r).

(** The body of the loop of [DeduplicationSeq]; [m] is the captured map. *)
Definition DeduplicationSeq_body {R} (m : nat) (yield : Visitor V R) : Visitor V R :=
  λ v r,
    t <- load_seen_set m ;;
    match t !! v with
    | Some _ => ret (true, r)
    | None =>
        store_seen_set m (<[v := true]> t) ;;
        yield v r
    end.

Definition DeduplicationSeq (s : Seq V) : M (Seq V) :=
  m <- new_seen_set ;;
  ret (λ R yield r, s R (DeduplicationSeq_body m yield) r).

Section Maphash.
(** [h.Reset(); maphash.WriteComparable(&h, v); h.Sum64()]: the digest
    of [v] under the seed of the captured [maphash.Hash]. *)
Variable Sum64 : V → Z.

Definition HashSeq (s : Seq V) : M (Seq (Z * V)) :=
  ret (λ R yield r, s R (λ v r, yield (Sum64 v, v) r) r).
End Maphash.

(** *** Grouping *)

Section Group.
Context {A Hk : Type} `{Countable Hk}.
(** The order in which [for _, v := range groups] enumerates the map
    is chosen by the Go runtime, afresh for every loop. *)
Variable range_map : nat → gmap Hk (list A) → list (Hk * list A).

(** The body of the loop that fills [groups]. *)
Definition GroupSeq_body (fn : A → Hk) : Visitor A (gmap Hk (list A)) :=
  λ v groups,
    let h := fn v in
    let g := default [] (groups !! h) in
    let g := g ++ [v] in
    ret (true, <[h := g]> groups).

(** The loop over [s] stands in front of [return func(yield ...)]: it
    runs when the sequence is constructed. *)
Definition GroupSeq (s : Seq A) (fn : A → Hk) : M (Seq (list A)) :=
  groups <- s (gmap Hk (list A)) (GroupSeq_body fn) ∅ ;;
  ret (λ R yield r,
    seed <- next_entropy ;;
    range_slice (range_map seed groups).*2 yield r).
End Group.

(** *** Transformations *)

Definition ReplaceFuncSeq {S} (s : Seq S) (fn : S → S) : M (Seq S) :=
  ret (λ R yield r, s R (λ v r, yield (fn v) r) r).

Definition ReplaceSeq (s : Seq V) (g : gmap V V) : M (Seq V) :=
  ret (λ R yield r,
    s R (λ v r,
      match g !! v with
      | Some r' => yield r' r
      | None => yield v r
      end) r).

Definition ConvertSeq {S T} (s : Seq S) (fn : S → T) : M (Seq T) :=
  ret (λ R yield r, s R (λ v r, yield (fn v) r) r).

Definition AnySeq {S} (s : Seq S) : M (Seq any) :=
  ret (λ R yield r, s R (λ v r, yield (to_any v) r) r).

(** *** Terminal operators *)

(** [result++] *)
Definition CountSeq {S} (s : Seq S) : M Z :=
  s Z (λ _ result, ret (true, Int.add result 1)) 0.

(** The body of the loop of [SumFuncSeq]; its variables are [result] and
    the pending [return *new(T), err]. *)
Definition SumFuncSeq_body {S T Err} `{Ordered T}
    (fn : S → T * option Err) : Visitor S (T * option Err) :=
  λ v '(result, _),
    let '(val, err) := fn v in
    match err with
    | Some e => ret (false, (result, Some e))
    | None => ret (true, (plus result val, None))
    end.

Definition SumFuncSeq {S T Err} `{Ordered T}
    (s : Seq S) (fn : S → T * option Err) : M (T * option Err) :=
  '(result, returned) <- s (T * option Err)%type (SumFuncSeq_body fn) (zero, None) ;;
  match returned with
  | Some e => ret (zero, Some e)
  | None => ret (result, None)
  end.

Section Sort.
Context {S : Type} `{Ordered S}.
(** [slices.Sort] belongs to Go's library. *)
Variable Sort : list S → list S.

Definition SumSeq (s : Seq S) : M S :=
  items <- Collect s ;;
  let items := Sort items in
  ret (foldl plus zero items).
End Sort.

(** The loop variable is the value the function returns. *)
Definition IsEmptySeq {S} (s : Seq S) : M bool :=
  s bool (λ _ _, ret (false, false)) true.
End Protocol.

(** ** What the design document says, as functions on lists *)

Section Sightings.
Context {V : Type} `{EqDecision V}.

Definition occurrences (x : V) (l : list V) : nat :=
  length (filter (λ y, y = x) l).

(** The elements of [l] that have been sighted exactly [k] times before
    (in [seen] and in the part of [l] in front of them), in the order
    of [l]. *)
Fixpoint sightings_from (k : nat) (seen l : list V) : list V :=
  match l with
  | [] => []
  | x :: l' =>
      if decide (occurrences x seen = k)
      then x :: sightings_from k (seen ++ [x]) l'
      else sightings_from k (seen ++ [x]) l'
  end.

(** First sightings: what deduplication keeps. *)
Definition first_sightings (l : list V) : list V := sightings_from 0 [] l.
(** Second sightings: the 1→2 transitions of the occurrence count. *)
Definition second_sightings (l : list V) : list V := sightings_from 1 [] l.
End Sightings.

(** ** Observations on a run *)

Section Observations.
Context {V : Type} `{Countable V} {E : Type}.
#[local] Abbreviation W := (World V E).
#[local] Abbreviation M := (M V E).
#[local] Abbreviation Seq := (Seq V E).

(** What [slices.Collect] returns for a freshly constructed sequence. *)
Definition collected {A} (c : M (Seq A)) (w : W) : list A :=
  fst ((s <- c ;; Collect s) w).

(** [out] keeps some elements of [l], in the order of [l]. *)
Definition restricts {A} (l out : list A) : Prop :=
  sublist out l ∧ (length out ≤ length l)%nat.

(** [out] is the image of [l] under [f], element by element. *)
Definition image_of {A B} (f : A → B) (l : list A) (out : list B) : Prop :=
  out = map f l ∧ length out = length l.

(** The calls that a visitor which always answers [false] receives from a
    freshly constructed sequence, and the world it leaves. *)
Definition drive_stop {A} (c : M (Seq A)) (w : W) : list A * W :=
  (s <- c ;; s (list A) stop []) w.

(** Early termination of the combinator [X] over the source [l]: the
    visitor is called exactly once, while the source hands out [x]; no
    call happens on the part [q] of the source in front of [x], and
    nothing behind [x] is ever handed out. *)
Definition early_termination {A} (X : Seq E → M (Seq A)) (l : list E) (w : W) : Prop :=
  ∃ q x rest y,
    l = q ++ x :: rest
    ∧ (drive_stop (X (Observed (Values q))) w).1 = []
    ∧ (drive_stop (X (Observed (Values l))) w).1 = [y]
    ∧ pulled (drive_stop (X (Observed (Values l))) w).2 = pulled w ++ q ++ [x].

(** Early termination of a sequence whose construction [c] has already
    consumed its source: one call, and the drive hands out nothing. *)
Definition early_termination_eager {A} (c : M (Seq A)) (w : W) : Prop :=
  let '(s, w1) := c w in
  let '(calls, w2) := s (list A) stop [] w1 in
  (∃ g, calls = [g]) ∧ pulled w2 = pulled w1.

(** What two complete traversals of one constructed sequence collect. *)
Definition driven_twice {A} (c : M (Seq A)) (w : W) : list A * list A :=
  fst ((s <- c ;; a <- Collect s ;; b <- Collect s ;; ret (a, b)) w).

(** What the sequences of two construction calls collect. *)
Definition constructed_twice {A} (c : M (Seq A)) (w : W) : list A * list A :=
  fst ((s1 <- c ;; s2 <- c ;; a <- Collect s1 ;; b <- Collect s2 ;; ret (a, b)) w).

(** The count table [t] holds the number of sightings of every value
    of [seen]. *)
Definition tallies (t : gmap V Z) (seen : list V) : Prop :=
  ∀ v, t !! v = if decide (occurrences v seen = 0%nat) then None
                else Some (Z.of_nat (occurrences v seen)).

(** The seen-set [t] holds exactly the values of [seen]. *)
Definition marks (t : gmap V bool) (seen : list V) : Prop :=
  ∀ v, is_Some (t !! v) ↔ v ∈ seen.

(** The map [groups] after the loop of [GroupSeq] has run over [l]. *)
Definition grouped {A Hk} `{Countable Hk} (fn : A → Hk)
    (groups : gmap Hk (list A)) (l : list A) : gmap Hk (list A) :=
  foldl (λ g v, <[fn v := default [] (g !! fn v) ++ [v]]> g) groups l.
End Observations.

(** ** The slice helpers of [slices.go]

    A slice is the list of its elements; a nil slice and an empty one are
    not told apart (both have length 0 and range over nothing), so that
    [if r == nil { return []T{} }] changes nothing.  [Delete] writes into
    the array behind its argument, and for it a slice is modelled with
    that array. *)

Module Slices.

(** A slice with the array behind it: [array] is the array from the first
    element of the slice on (its length is the capacity of the slice) and
    [len] the length of the slice. *)
Record Slice (A : Type) : Type := mkSlice { array : list A; len : nat }.
Arguments mkSlice {A} array len.
Arguments array {A} s.
Arguments len {A} s.

Section Arrays.
Context {A : Type}.

Definition elements (s : Slice A) : list A := take (len s) (array s).

(** [s[:i]] shares the array of [s]. *)
Definition reslice_to (s : Slice A) (i : nat) : Slice A := mkSlice (array s) i.

(** [append(s, vs...)]: within the capacity the elements are written into
    the array behind [s]; beyond it a new array is allocated (of which
    only the elements are modelled). *)
Definition append (s : Slice A) (vs : list A) : Slice A :=
  if decide (len s + length vs ≤ length (array s))%nat
  then mkSlice (take (len s) (array s) ++ vs
                ++ drop (len s + length vs) (array s))
               (len s + length vs)
  else mkSlice (take (len s) (array s) ++ vs) (len s + length vs).
End Arrays.

Section Pure.
Context {V : Type} `{EqDecision V}.

(** [for i, v := range slice]: [rest] is what is left of the elements,
    [i] the index of its head.  The inner loop over [vals] returns at the
    first [val] equal to [v]. *)
Fixpoint Delete_loop (slice : Slice V) (vals : list V) (i : nat) (rest : list V) : Slice V :=
  match rest with
  | [] => slice
  | v :: rest' =>
      if existsb (λ val, bool_decide (v = val)) vals
      then append (reslice_to slice i) (drop (S i) (elements slice))
      else Delete_loop slice vals (S i) rest'
  end.

Definition Delete (slice : Slice V) (vals : list V) : Slice V :=
  Delete_loop slice vals 0 (elements slice).
End Pure.

Section Maps.
Context {S K T Err : Type} `{Countable K}.

(** The map is [nil] (here [None]) exactly when an error is returned. *)
Fixpoint Remap_loop (f : S → K * T * option Err) (slice : list S)
    (result : gmap K T) : option (gmap K T) * option Err :=
  match slice with
  | [] => (Some result, None)
  | v :: slice' =>
      let '(k, v, err) := f v in
      match err with
      | Some e => (None, Some e)
      | None => Remap_loop f slice' (<[k := v]> result)
      end
  end.

Definition Remap (slice : list S) (f : S → K * T * option Err) :
    option (gmap K T) * option Err :=
  Remap_loop f slice ∅.

Definition ToMap (slice : list S) (f : S → K) : gmap K S :=
  foldl (λ result v, let k := f v in <[k := v]> result) ∅ slice.

(** The keys that [Group] collects and sorts after its loop are never
    used; the function returns [groups] as the loop left it. *)
Definition Group (s : list S) (f : S → K) : gmap K (list S) :=
  foldl (λ groups v,
           let key := f v in
           match groups !! key with
           | Some group => <[key := group ++ [v]]> groups
           | None => <[key := [v]]> groups
           end) ∅ s.
End Maps.

Section Pairing.
Context {T : Type}.
(** [*new(T)] *)
Variable zero_value : T.

(** [for i := 0; i < len(values); i += 2]; an index outside the slice
    panics ([None]).  [fuel] bounds the number of iterations. *)
Fixpoint Pairs_loop (fuel : nat) (values : list T) (i : Z)
    (result : list (T * T)) : option (list (T * T)) :=
  match fuel with
  | O => None
  | S fuel' =>
      if decide (i < Z.of_nat (length values)) then
        if decide (0 ≤ i) then
          match values !! Z.to_nat i with
          | None => None
          | Some key =>
              let value :=
                if decide (Int.add i 1 < Z.of_nat (length values))
                then values !! Z.to_nat (Int.add i 1)
                else Some zero_value in
              match value with
              | None => None
              | Some value =>
                  Pairs_loop fuel' values (Int.add i 2) (result ++ [(key, value)])
              end
          end
        else None
      else Some result
  end.

Definition Pairs (values : list T) : option (list (T * T)) :=
  Pairs_loop (S (length values)) values 0 [].
End Pairing.

Section Wrappers.
Context {V : Type} `{Countable V} {E : Type}.
#[local] Abbreviation M := (M V E).
#[local] Abbreviation Seq := (Seq V E).

Definition Select {S} (slice : list S) (f : S → bool) : M (list S) :=
  s <- FilterSeq (Values slice) f ;; Collect s.

Definition Count {S} (slice : list S) (f : S → bool) : M Z :=
  s <- FilterSeq (Values slice) f ;; CountSeq s.

Definition Empty {S} (slice : list S) (f : S → bool) : M bool :=
  s <- FilterSeq (Values slice) f ;; IsEmptySeq s.

Definition Deduplicate (s : list V) : M (list V) :=
  seq <- DeduplicationSeq (Values s) ;; Collect seq.

(** The second loop ranges over the map [tmp]. *)
Definition Duplicates (range_map : nat → gmap V Z → list (V * Z))
    (slice : list V) : M (list V) :=
  let tmp :=
    foldl (λ tmp v,
             match tmp !! v with
             | Some cnt => <[v := Int.add cnt 1]> tmp
             | None => <[v := 1]> tmp
             end) ∅ slice in
  seed <- next_entropy ;;
  ret (foldl (λ result '(k, v), if decide (1 < v) then result ++ [k] else result)
         [] (range_map seed tmp)).

Definition Groups {S K} `{Countable K}
    (range_map : nat → gmap K (list S) → list (K * list S))
    (s : list S) (f : S → K) : M (list (list S)) :=
  seq <- GroupSeq range_map (Values s) f ;; Collect seq.

(** [slices.Chunk], after its documentation: consecutive sub-slices of up
    to [n] elements, all but the last of [n] elements. *)
Fixpoint Chunk_list {S} (fuel n : nat) (s : list S) : list (list S) :=
  match fuel, s with
  | O, _ | _, [] => []
  | S fuel', _ => take n s :: Chunk_list fuel' n (drop n s)
  end.

Definition Chunk {S} (s : list S) (n : nat) : Seq (list S) :=
  Values (Chunk_list (length s) n s).

Definition Chunks {S} (slice : list S) (size : Z) : M (list (list S)) :=
  if decide (size < 1) then
    if decide (length slice = 0%nat) then ret [] else ret [slice]
  else Collect (Chunk slice (Z.to_nat size)).

End Wrappers.

Section Strings.
Context {E Regexp : Type}.
Variable MatchString : Regexp → string → bool.

Definition FilterStrings (s : list string) (p : Regexp) : M string E (list string) :=
  let values := Values s in
  q <- PatternSeq MatchString values p ;; Collect q.

Definition RemoveStrings (s : list string) (p : Regexp) : M string E (list string) :=
  let values := Values s in
  g <- PatternSeq MatchString values p ;;
  r <- RemoveSeq values g ;;
  Collect r.
End Strings.
End Slices.

(** ** Sightings *)

Section SightingsFacts.
Context {V : Type} `{EqDecision V}.
Implicit Types (x v : V) (l seen : list V) (k : nat).
#[local] Open Scope nat_scope.

Lemma occurrences_cons x y l :
  occurrences x (y :: l) = if decide (y = x) then S (occurrences x l)
                           else occurrences x l.
Proof. unfold occurrences. rewrite filter_cons. by case_decide. Qed.

Lemma occurrences_app x l1 l2 :
  occurrences x (l1 ++ l2) = occurrences x l1 + occurrences x l2.
Proof. unfold occurrences. by rewrite filter_app, length_app. Qed.

Lemma occurrences_snoc x y l :
  occurrences x (l ++ [y]) = if decide (y = x) then S (occurrences x l)
                             else occurrences x l.
Proof.
  rewrite occurrences_app, occurrences_cons.
  change (occurrences x []) with 0. case_decide; lia.
Qed.

Lemma occurrences_zero x l : occurrences x l = 0 ↔ x ∉ l.
Proof.
  induction l as [|y l IH]; [by split; [intros _; apply not_elem_of_nil|]|].
  rewrite occurrences_cons, not_elem_of_cons. case_decide; subst.
  - split; [done | by intros [? _]].
  - rewrite IH. split; [by split | by intros [_ ?]].
Qed.

Lemma occurrences_le_length x l : occurrences x l ≤ length l.
Proof. apply length_filter. Qed.

Lemma elem_of_sightings_from k seen l v :
  v ∈ sightings_from k seen l
  ↔ occurrences v seen ≤ k ∧ k < occurrences v seen + occurrences v l.
Proof.
  revert seen. induction l as [|x l IH]; intros seen; simpl.
  - rewrite elem_of_nil. change (occurrences v []) with 0. lia.
  - pose proof (IH (seen ++ [x])) as IH'.
    rewrite occurrences_snoc in IH'. rewrite occurrences_cons.
    destruct (decide (occurrences x seen = k)) as [Hk|Hk];
      [rewrite elem_of_cons|]; rewrite IH';
      destruct (decide (x = v)) as [->|Hne]; try lia.
    + split; [intros _; lia | by left].
    + split; [intros [?|?]; [congruence | lia] | intros ?; right; lia].
Qed.

Lemma NoDup_sightings_from k seen l : NoDup (sightings_from k seen l).
Proof.
  revert seen. induction l as [|x l IH]; intros seen; simpl; [constructor|].
  case_decide; [|apply IH]. constructor; [|apply IH].
  rewrite elem_of_sightings_from, occurrences_snoc.
  rewrite decide_True by done. lia.
Qed.

Lemma elem_of_first_sightings l v : v ∈ first_sightings l ↔ v ∈ l.
Proof.
  unfold first_sightings. rewrite elem_of_sightings_from.
  change (occurrences v []) with 0.
  pose proof (occurrences_zero v l) as Hz.
  split.
  - intros [_ Hlt]. destruct (decide (v ∈ l)) as [|Hn]; [done|].
    apply Hz in Hn. lia.
  - intros Hin. split; [lia|].
    assert (occurrences v l ≠ 0) by (by rewrite Hz; intros ?). lia.
Qed.

Lemma elem_of_second_sightings l v :
  v ∈ second_sightings l ↔ 2 ≤ occurrences v l.
Proof.
  unfold second_sightings. rewrite elem_of_sightings_from.
  change (occurrences v []) with 0. lia.
Qed.

(** A value that has been seen before is no first sighting. *)
Lemma sightings_from_0_seen seen l :
  (∀ x, x ∈ l → x ∈ seen) → sightings_from 0 seen l = [].
Proof.
  revert seen. induction l as [|x l IH]; intros seen Hl; simpl; [done|].
  rewrite decide_False.
  - apply IH. intros y Hy. rewrite elem_of_app. left. apply Hl. by right.
  - rewrite occurrences_zero. intros Hx. apply Hx, Hl. by left.
Qed.

(** Running over [base] a second time, the second sightings are the
    values that occur in [base] exactly once. *)
Lemma sightings_from_1_again base p rest :
  base = p ++ rest →
  sightings_from 1 (base ++ p) rest
  = filter (λ x, occurrences x base = 1) rest.
Proof.
  revert p. induction rest as [|x rest IH]; intros p Hbase; simpl; [done|].
  rewrite filter_cons, <- (assoc_L (++)).
  rewrite (IH (p ++ [x])) by (by rewrite <- (assoc_L (++))).
  assert (occurrences x (base ++ p) = 1 ↔ occurrences x base = 1) as Hiff.
  { assert (occurrences x base = occurrences x p + S (occurrences x rest)) as Hb
      by (by rewrite Hbase, occurrences_app, occurrences_cons, decide_True).
    rewrite occurrences_app. lia. }
  by repeat case_decide; try tauto.
Qed.

End SightingsFacts.

(** ** Running the loops *)

Section Loops.
Context {V : Type} `{Countable V} {E : Type}.
#[local] Abbreviation W := (World V E).
#[local] Abbreviation Visitor := (Visitor V E).

Lemma logged_nil (w : W) : logged [] w = w.
Proof. destruct w; unfold logged; simpl. by rewrite app_nil_r. Qed.

Lemma logged_app l1 l2 (w : W) :
  logged l2 (logged l1 w) = logged (l1 ++ l2) w.
Proof. unfold logged; simpl. by rewrite app_assoc. Qed.

Lemma range_slice_ext {A R} (l : list A) (y1 y2 : Visitor A R) r w :
  (∀ v r w, y1 v r w = y2 v r w) →
  range_slice l y1 r w = range_slice l y2 r w.
Proof.
  intros Hy. revert r w. induction l as [|a l IH]; intros r w; [done|].
  simpl. unfold bind. rewrite Hy.
  destruct (y2 a r w) as [[[] r'] w']; [apply IH | done].
Qed.

Lemma range_slice_filter {A R} (p : A → bool) (l : list A) (yield : Visitor A R) r w :
  range_slice l (λ v r, if p v then yield v r else ret (true, r)) r w
  = range_slice (List.filter p l) yield r w.
Proof.
  revert r w. induction l as [|a l IH]; intros r w; [done|].
  simpl. destruct (p a); simpl; unfold bind, ret.
  - destruct (yield a r w) as [[[] r'] w']; [apply IH | done].
  - apply IH.
Qed.

Lemma range_slice_map {A B R} (f : A → B) (l : list A) (yield : Visitor B R) r w :
  range_slice l (λ v r, yield (f v) r) r w = range_slice (map f l) yield r w.
Proof.
  revert r w. induction l as [|a l IH]; intros r w; [done|].
  simpl. unfold bind.
  destruct (yield (f a) r w) as [[[] r'] w']; [apply IH | done].
Qed.

Lemma range_slice_collect {A} (l acc : list A) (w : W) :
  range_slice l (λ v acc, ret (true, acc ++ [v])) acc w = (acc ++ l, w).
Proof.
  revert acc. induction l as [|a l IH]; intros acc; simpl.
  - by rewrite app_nil_r.
  - unfold bind, ret. rewrite IH. by rewrite <- app_assoc.
Qed.

Lemma range_slice_map_collect {A B} (f : A → B) (l : list A) (acc : list B) (w : W) :
  range_slice l (λ v acc, ret (true, acc ++ [f v])) acc w = (acc ++ map f l, w).
Proof.
  by rewrite (range_slice_map f l (λ v acc, ret (true, acc ++ [v]))),
    range_slice_collect.
Qed.

Lemma Collect_Values {A} (l : list A) (w : W) :
  Collect (Values l) w = (l, w).
Proof. unfold Collect, Values. by rewrite range_slice_collect. Qed.

(** An observed loop whose body passes on the elements that [f] maps
    somewhere: on elements that [f] drops it only logs. *)
Lemma range_slice_observed_silent {A R} (f : E → option A) (yield : Visitor A R)
    (q rest : list E) (r : R) (w : W) :
  Forall (λ v, f v = None) q →
  range_slice (q ++ rest)
    (λ v r, log_pull v ;;
            match f v with Some y => yield y r | None => ret (true, r) end) r w
  = range_slice rest
      (λ v r, log_pull v ;;
              match f v with Some y => yield y r | None => ret (true, r) end) r
      (logged q w).
Proof.
  set (body := λ v r, log_pull v ;; match f v with
                                    | Some y => yield y r
                                    | None => ret (true, r)
                                    end).
  revert w. induction q as [|a q IH]; intros w Hq; [by rewrite logged_nil|].
  apply Forall_cons in Hq as [Ha Hq]. simpl.
  unfold bind at 1, body at 1, bind, log_pull, log_pulls, ret. rewrite Ha.
  rewrite IH by done. by rewrite logged_app.
Qed.

Lemma range_slice_omap_collect {A B} (f : A → option B) (l : list A)
    (acc : list B) (w : W) :
  range_slice l
    (λ v acc, match f v with
              | Some y => ret (true, acc ++ [y])
              | None => ret (true, acc)
              end) acc w
  = (acc ++ omap f l, w).
Proof.
  revert acc. induction l as [|a l IH]; intros acc; simpl.
  - by rewrite app_nil_r.
  - unfold bind. destruct (f a); unfold ret at 1; rewrite IH; [|done].
    by rewrite <- (assoc_L (++)).
Qed.

Lemma concat_map_singleton {A} (l : list A) : concat (map (λ v, [v]) l) = l.
Proof. induction l as [|a l IH]; simpl; [done | by rewrite IH]. Qed.

(** The loop of [GroupSeq] over an observed source drains it. *)
Lemma GroupSeq_loop {Hk} `{Countable Hk} (fn : E → Hk) (l : list E)
    (groups : gmap Hk (list E)) (w : W) :
  range_slice l (λ v r, log_pull v ;; GroupSeq_body fn v r) groups w
  = (grouped fn groups l, logged l w).
Proof.
  set (body := λ v r, log_pull v ;; GroupSeq_body fn v r).
  revert groups w. induction l as [|a l IH]; intros groups w; simpl.
  - by rewrite logged_nil.
  - unfold bind at 1, body at 1, GroupSeq_body, bind, log_pull, log_pulls, ret.
    rewrite IH. by rewrite logged_app.
Qed.

Lemma grouped_non_empty {A Hk} `{Countable Hk} (fn : A → Hk) (l : list A)
    (groups : gmap Hk (list A)) :
  groups ≠ ∅ ∨ l ≠ [] → grouped fn groups l ≠ ∅.
Proof.
  revert groups. induction l as [|a l IH]; intros groups Hne; simpl.
  - by destruct Hne.
  - apply IH. left. apply insert_non_empty.
Qed.

(** The membership test of [RemoveSeq]: the inner loop over [g]. *)
Lemma range_slice_found (v1 : V) (ex : list V) (w : W) :
  range_slice ex (λ v2 found,
      if decide (v1 = v2) then ret (false, true) else ret (true, found))
    false w
  = (bool_decide (v1 ∈ ex), w).
Proof.
  induction ex as [|a ex IH]; simpl; [done|].
  unfold bind, ret in *. destruct (decide (v1 = a)) as [->|Hne].
  - rewrite bool_decide_eq_true_2; [done | left].
  - rewrite IH. f_equal. apply bool_decide_ext.
    rewrite elem_of_cons. split; [by right | by intros [?|?]].
Qed.
End Loops.

(** ** Stateless combinators: filters and elementwise maps *)

Section Stateless.
Context {V : Type} `{Countable V} {E : Type}.
#[local] Abbreviation W := (World V E).
#[local] Abbreviation M := (M V E).
#[local] Abbreviation Seq := (Seq V E).

Lemma filter_restricts {A} (p : A → bool) (l : list A) :
  restricts l (List.filter p l).
Proof.
  assert (sublist (List.filter p l) l) as Hs.
  { induction l as [|a l IH]; simpl; [constructor|].
    destruct (p a); by constructor. }
  split; [done | by apply sublist_length].
Qed.

Lemma FilterSeq_collected {S} (l : list S) (fn : S → bool) (w : W) :
  collected (FilterSeq (Values l) fn) w = List.filter fn l.
Proof.
  unfold collected, FilterSeq, Collect, Values, bind at 1, ret at 1.
  by rewrite range_slice_filter, range_slice_collect.
Qed.

Lemma PatternSeq_collected {S} `{Dynamic S} {Regexp} (MatchString : Regexp → string → bool)
    (l : list S) (pattern : Regexp) (w : W) :
  collected (PatternSeq MatchString (Values l) pattern) w
  = List.filter (λ v, MatchString pattern (txt v)) l.
Proof.
  unfold collected, PatternSeq, Collect, Values, bind at 1, ret at 1.
  by rewrite (range_slice_filter (λ v, MatchString pattern (txt v))),
    range_slice_collect.
Qed.

Lemma StringPatternSeq_collected {S} `{Dynamic S} (l : list S) (pattern : string) (w : W) :
  collected (StringPatternSeq (Values l) pattern) w
  = List.filter (λ v, bool_decide (txt v = pattern)) l.
Proof.
  unfold collected, StringPatternSeq, Collect, Values, bind at 1, ret at 1.
  trans (fst (range_slice (List.filter (λ v, bool_decide (txt v = pattern)) l)
                (λ v acc, ret (true, acc ++ [v])) [] w));
    [| by rewrite range_slice_collect].
  rewrite <- range_slice_filter. f_equal. apply range_slice_ext.
  intros v r w'. by case_bool_decide; case_decide.
Qed.
End Stateless.

Section Elementwise.
Context {V : Type} `{Countable V} {E : Type}.
#[local] Abbreviation W := (World V E).

Lemma ReplaceFuncSeq_collected {S} (l : list S) (fn : S → S) (w : W) :
  collected (ReplaceFuncSeq (Values l) fn) w = map fn l.
Proof.
  unfold collected, ReplaceFuncSeq, Collect, Values, bind at 1, ret at 1.
  by rewrite (range_slice_map_collect fn).
Qed.

Lemma ConvertSeq_collected {S T} (l : list S) (fn : S → T) (w : W) :
  collected (ConvertSeq (Values l) fn) w = map fn l.
Proof.
  unfold collected, ConvertSeq, Collect, Values, bind at 1, ret at 1.
  by rewrite (range_slice_map_collect fn).
Qed.

Lemma AnySeq_collected {S} (l : list S) (w : W) :
  collected (AnySeq (Values l)) w = map to_any l.
Proof.
  unfold collected, AnySeq, Collect, Values, bind at 1, ret at 1.
  by rewrite (range_slice_map_collect to_any).
Qed.

Lemma ReplaceSeq_collected (l : list V) (g : gmap V V) (w : W) :
  collected (ReplaceSeq (Values l) g) w = map (λ v, default v (g !! v)) l.
Proof.
  unfold collected, ReplaceSeq, Collect, Values, bind at 1, ret at 1.
  trans (fst (range_slice l
                (λ v acc, ret (true, acc ++ [default v (g !! v)])) [] w));
    [| by rewrite (range_slice_map_collect (λ v, default v (g !! v)))].
  f_equal. apply range_slice_ext.
  intros v r w'. by destruct (g !! v).
Qed.

Lemma HashSeq_collected (Sum64 : V → Z) (l : list V) (w : W) :
  collected (HashSeq Sum64 (Values l)) w = map (λ v, (Sum64 v, v)) l.
Proof.
  unfold collected, HashSeq, Collect, Values, bind at 1, ret at 1.
  by rewrite (range_slice_map_collect (λ v, (Sum64 v, v))).
Qed.

Lemma RemoveSeq_collected (l ex : list V) (w : W) :
  collected (RemoveSeq (Values l) (Values ex)) w
  = List.filter (λ v, bool_decide (v ∉ ex)) l.
Proof.
  unfold collected, RemoveSeq, Collect, Values, bind at 1, ret at 1.
  trans (fst (range_slice (List.filter (λ v, bool_decide (v ∉ ex)) l)
                (λ v acc, ret (true, acc ++ [v])) [] w));
    [| by rewrite range_slice_collect].
  rewrite <- range_slice_filter. f_equal. apply range_slice_ext.
  intros v r w'. unfold bind at 1. rewrite range_slice_found.
  by repeat case_bool_decide.
Qed.
End Elementwise.

(** ** Terminal operators *)

Section Terminal.
Context {V : Type} `{Countable V} {E : Type}.
#[local] Abbreviation W := (World V E).

Lemma first_split {A} (P : A → Prop) `{∀ x, Decision (P x)} (l : list A) :
  Exists P l →
  ∃ q x rest, l = q ++ x :: rest ∧ Forall (λ v, ¬ P v) q ∧ P x.
Proof.
  induction l as [|a l IH]; intros Hex; [by apply Exists_nil in Hex|].
  destruct (decide (P a)) as [Ha|Ha].
  - by exists [], a, l.
  - apply Exists_cons in Hex as [?|Hex]; [done|].
    destruct (IH Hex) as (q & x & rest & -> & Hq & Hx).
    exists (a :: q), x, rest. split; [done|]. split; [by constructor | done].
Qed.

Lemma SumSeq_Values {S} `{Ordered S} (Sort : list S → list S) (l : list S) (w : W) :
  SumSeq Sort (Values l) w = (foldl plus zero (Sort l), w).
Proof. unfold SumSeq, bind. by rewrite Collect_Values. Qed.

Lemma Sort_unique {S} `{Ordered S} (Sort : list S → list S) :
  (∀ l, Sort l ≡ₚ l) → (∀ l, Sorted ascending (Sort l)) →
  Transitive (ascending (T:=S)) → AntiSymm (=) (ascending (T:=S)) →
  ∀ l l', l ≡ₚ l' → Sort l = Sort l'.
Proof.
  intros Hperm Hsorted ?? l l' Hl.
  apply (Sorted_unique ascending); [apply Hsorted .. |].
  by rewrite !Hperm.
Qed.

Lemma int_ascending_le (x y : Z) : ascending x y ↔ x ≤ y.
Proof. unfold ascending. simpl. apply Z.ltb_ge. Qed.

#[export] Instance int_ascending_trans : Transitive (ascending (T:=Z)).
Proof. intros x y z. rewrite !int_ascending_le. lia. Qed.

#[export] Instance int_ascending_antisym : AntiSymm (=) (ascending (T:=Z)).
Proof. intros x y. rewrite !int_ascending_le. lia. Qed.

#[export] Instance int_ascending_total : Total (ascending (T:=Z)).
Proof. intros x y. rewrite !int_ascending_le. lia. Qed.

Section Fallible.
Context {S T Err : Type} `{Ordered T}.
Variable fn : S → T * option Err.

Lemma SumFuncSeq_loop_ok (l : list S) (result : T) (w : World V S) :
  Forall (λ v, (fn v).2 = None) l →
  range_slice l (λ v r, log_pull v ;; SumFuncSeq_body fn v r) (result, None) w
  = ((foldl plus result (map (λ v, (fn v).1) l), None), logged l w).
Proof.
  set (body := λ v r, log_pull v ;; SumFuncSeq_body fn v r).
  revert result w. induction l as [|a l IH]; intros result w Hl.
  - simpl. by rewrite logged_nil.
  - apply Forall_cons in Hl as [Ha Hl].
    simpl. unfold bind at 1, body at 1, SumFuncSeq_body, bind, log_pull, log_pulls, ret.
    destruct (fn a) as [val err] eqn:Hfn. simpl in Ha. subst err. simpl.
    rewrite IH by done. by rewrite logged_app.
Qed.

Lemma SumFuncSeq_loop_err (q : list S) x rest e (result : T)
    (w : World V S) :
  Forall (λ v, (fn v).2 = None) q → (fn x).2 = Some e →
  ∃ partial,
    range_slice (q ++ x :: rest) (λ v r, log_pull v ;; SumFuncSeq_body fn v r)
      (result, None) w
    = ((partial, Some e), logged (q ++ [x]) w).
Proof.
  set (body := λ v r, log_pull v ;; SumFuncSeq_body fn v r).
  revert result w. induction q as [|a q IH]; intros result w Hq Hx.
  - exists result. simpl.
    unfold bind at 1, body at 1, SumFuncSeq_body, bind, log_pull, log_pulls, ret.
    destruct (fn x) as [val err]. simpl in Hx. by subst err.
  - apply Forall_cons in Hq as [Ha Hq].
    simpl. unfold bind at 1, body at 1, SumFuncSeq_body, bind, log_pull, log_pulls, ret.
    destruct (fn a) as [val err] eqn:Hfn. simpl in Ha. subst err. simpl.
    destruct (IH (plus result val) (logged [a] w) Hq Hx) as [partial ->].
    exists partial. by rewrite logged_app.
Qed.
End Fallible.
End Terminal.

(** ** The combinators that keep a map *)

Section Stateful.
Context {V : Type} `{Countable V} {E : Type}.
#[local] Abbreviation W := (World V E).

Implicit Types (t : gmap V Z) (u : gmap V bool) (seen l q : list V) (a v : V).

Lemma Int_add_small (c : Z) : 0 ≤ c → c + 1 < 2 ^ 63 → Int.add c 1 = c + 1.
Proof. unfold Int.add, Int.wrap. intros. rewrite Z.mod_small; lia. Qed.

Lemma set_count_table_twice m t t' (w : W) :
  set_count_table m t' (set_count_table m t w) = set_count_table m t' w.
Proof. unfold set_count_table; simpl. by rewrite list_insert_insert_eq. Qed.

Lemma set_count_table_id m t (w : W) :
  count_tables w !! m = Some t → set_count_table m t w = w.
Proof.
  intros Hm. destruct w. unfold set_count_table; simpl in *.
  by rewrite list_insert_id.
Qed.

Lemma lookup_set_count_table m t t' (w : W) :
  count_tables w !! m = Some t →
  count_tables (set_count_table m t' w) !! m = Some t'.
Proof. intros Hm. apply list_lookup_insert_eq. by eapply lookup_lt_Some. Qed.

Lemma set_seen_set_twice m u u' (w : W) :
  set_seen_set m u' (set_seen_set m u w) = set_seen_set m u' w.
Proof. unfold set_seen_set; simpl. by rewrite list_insert_insert_eq. Qed.

Lemma set_seen_set_id m u (w : W) :
  seen_sets w !! m = Some u → set_seen_set m u w = w.
Proof.
  intros Hm. destruct w. unfold set_seen_set; simpl in *.
  by rewrite list_insert_id.
Qed.

Lemma lookup_set_seen_set m u u' (w : W) :
  seen_sets w !! m = Some u →
  seen_sets (set_seen_set m u' w) !! m = Some u'.
Proof. intros Hm. apply list_lookup_insert_eq. by eapply lookup_lt_Some. Qed.

Lemma lookup_set_seen_set_ne m m' u' (w : W) :
  m ≠ m' → seen_sets (set_seen_set m u' w) !! m' = seen_sets w !! m'.
Proof. intros Hm. by apply list_lookup_insert_ne. Qed.

Lemma set_seen_set_commute m m' u u' (w : W) :
  m ≠ m' →
  set_seen_set m u (set_seen_set m' u' w) = set_seen_set m' u' (set_seen_set m u w).
Proof.
  intros Hm. unfold set_seen_set; simpl. by rewrite list_insert_insert_ne.
Qed.

(** *** [DuplicateSeq] *)

Lemma tallies_nil : tallies (V:=V) ∅ [].
Proof. intros v. by rewrite lookup_empty. Qed.

Lemma tallies_new t seen a :
  tallies t seen → t !! a = None → tallies (<[a := 1]> t) (seen ++ [a]).
Proof.
  intros Ht Ha v. rewrite occurrences_snoc.
  pose proof (Ht a) as Hta. rewrite Ha in Hta.
  destruct (decide (a = v)) as [->|Hne].
  - rewrite lookup_insert_eq. case_decide; [|done].
    by rewrite decide_False, H0.
  - rewrite lookup_insert_ne by done. apply Ht.
Qed.

Lemma tallies_again t seen a cnt :
  tallies t seen → t !! a = Some cnt → Z.of_nat (length seen) + 1 < 2 ^ 63 →
  cnt = Z.of_nat (occurrences a seen) ∧ (occurrences a seen ≠ 0)%nat
  ∧ tallies (<[a := Int.add cnt 1]> t) (seen ++ [a]).
Proof.
  intros Ht Ha Hlen. pose proof (Ht a) as Hta. rewrite Ha in Hta.
  case_decide as Ho; [done|]. injection Hta as ->.
  pose proof (occurrences_le_length a seen).
  split; [done|]. split; [done|].
  intros v. rewrite occurrences_snoc. destruct (decide (a = v)) as [->|Hne].
  - rewrite lookup_insert_eq, decide_False by done.
    rewrite Int_add_small by lia. f_equal. lia.
  - rewrite lookup_insert_ne by done. apply Ht.
Qed.

Lemma DuplicateSeq_loop_collect m (l seen acc : list V) t (w : W) :
  count_tables w !! m = Some t → tallies t seen →
  Z.of_nat (length seen + length l) < 2 ^ 63 →
  ∃ t',
    range_slice l (DuplicateSeq_body m (λ v acc, ret (true, acc ++ [v]))) acc w
    = (acc ++ sightings_from 1 seen l, set_count_table m t' w)
    ∧ tallies t' (seen ++ l).
Proof.
  set (body := DuplicateSeq_body m (λ v acc, ret (true, acc ++ [v]))).
  revert seen acc t w. induction l as [|a l IH]; intros seen acc t w Hm Ht Hlen.
  - exists t. simpl. rewrite !app_nil_r, set_count_table_id by done. done.
  - simpl in Hlen. simpl.
    unfold bind at 1, body at 1, DuplicateSeq_body, bind, load_count_table,
      store_count_table, ret.
    rewrite Hm. simpl. destruct (t !! a) as [cnt|] eqn:Ha.
    + destruct (tallies_again t seen a cnt Ht Ha) as (-> & Ho & Ht'); [lia|].
      destruct (IH (seen ++ [a])
                  (if decide (occurrences a seen = 1%nat) then acc ++ [a] else acc)
                  _ _ (lookup_set_count_table _ _ _ _ Hm) Ht')
        as (t' & Hrun & Ht'').
      { rewrite length_app. simpl. lia. }
      exists t'. rewrite <- (assoc_L (++)) in Ht''. split; [|done].
      rewrite set_count_table_twice in Hrun.
      destruct (decide (occurrences a seen = 1%nat)) as [Ho1|Ho1].
      * rewrite decide_True by (by rewrite Ho1). rewrite Hrun.
        by rewrite <- (assoc_L (++)).
      * rewrite decide_False by lia. by rewrite Hrun.
    + pose proof (Ht a) as Hta. rewrite Ha in Hta.
      case_decide as Ho; [|done].
      destruct (IH (seen ++ [a]) acc _ _ (lookup_set_count_table _ _ _ _ Hm)
                  (tallies_new _ _ _ Ht Ha))
        as (t' & Hrun & Ht'').
      { rewrite length_app. simpl. lia. }
      exists t'. rewrite <- (assoc_L (++)) in Ht''. split; [|done].
      rewrite set_count_table_twice in Hrun.
      rewrite decide_False by lia. by rewrite Hrun.
Qed.

(** As long as no value repeats, the loop of [DuplicateSeq] calls nobody. *)
Lemma DuplicateSeq_loop_silent {R} (obs : V → list E) m q t
    (yield : Visitor V E V R) (r : R) (w : W) :
  count_tables w !! m = Some t → NoDup q → (∀ v, v ∈ q → t !! v = None) →
  ∃ t',
    (∀ rest,
        range_slice (q ++ rest)
          (λ v r, log_pulls (obs v) ;; DuplicateSeq_body m yield v r) r w
        = range_slice rest
            (λ v r, log_pulls (obs v) ;; DuplicateSeq_body m yield v r) r
            (set_count_table m t' (logged (concat (map obs q)) w)))
    ∧ (∀ v, v ∈ q → t' !! v = Some 1) ∧ (∀ v, v ∉ q → t' !! v = t !! v).
Proof.
  set (body := λ v r, log_pulls (obs v) ;; DuplicateSeq_body m yield v r).
  revert t w. induction q as [|a q IH]; intros t w Hm Hnd Hq.
  - exists t. simpl. rewrite logged_nil, set_count_table_id by done.
    split; [done|]. split; [|done]. intros v Hv. by apply elem_of_nil in Hv.
  - apply NoDup_cons in Hnd as [Ha Hnd].
    destruct (IH (<[a := 1]> t) (set_count_table m (<[a := 1]> t) (logged (obs a) w)))
      as (t' & Hrun & Hin & Hout); [by eapply lookup_set_count_table | done | |].
    { intros v Hv. rewrite lookup_insert_ne by (by intros ->).
      apply Hq. by right. }
    exists t'. split; [|split].
    + intros rest. simpl.
      unfold bind at 1, body at 1, DuplicateSeq_body, bind, log_pulls,
        load_count_table, store_count_table, ret.
      simpl. rewrite Hm. simpl. rewrite (Hq a) by left.
      rewrite Hrun. f_equal.
      change (logged (concat (map obs q)) (set_count_table m (<[a:=1]> t) (logged (obs a) w)))
        with (set_count_table m (<[a:=1]> t) (logged (concat (map obs q)) (logged (obs a) w))).
      by rewrite set_count_table_twice, logged_app.
    + intros v [->|Hv]%elem_of_cons; [|by apply Hin].
      by rewrite Hout, lookup_insert_eq.
    + intros v [Hne Hv]%not_elem_of_cons.
      by rewrite Hout, lookup_insert_ne.
Qed.

(** A list with a repeated value, cut at the first repetition. *)
Lemma first_repeat_split l :
  ¬ NoDup l → ∃ q x rest, l = q ++ x :: rest ∧ NoDup q ∧ x ∈ q.
Proof.
  induction l as [|a l IH] using rev_ind; intros Hnd; [by destruct Hnd; constructor|].
  destruct (decide (NoDup l)) as [Hl|Hl].
  - exists l, a, []. split; [done|]. split; [done|].
    destruct (decide (a ∈ l)) as [|Ha]; [done|]. destruct Hnd.
    apply NoDup_app. split; [done|]. split; [|apply NoDup_singleton].
    intros v Hv ->%list_elem_of_singleton. done.
  - destruct (IH Hl) as (q & x & rest & -> & Hq & Hx).
    exists q, x, (rest ++ [a]). by rewrite <- (assoc_L (++)).
Qed.

(** *** [DeduplicationSeq] *)

Lemma marks_nil : marks (V:=V) ∅ [].
Proof.
  intros v. rewrite lookup_empty, elem_of_nil. split; [by intros [] | done].
Qed.

Lemma marks_new u seen a : marks u seen → marks (<[a := true]> u) (seen ++ [a]).
Proof.
  intros Hu v. rewrite elem_of_app, list_elem_of_singleton, <- (Hu v).
  destruct (decide (a = v)) as [->|Hne].
  - rewrite lookup_insert_eq. split; [by right | by eexists].
  - rewrite lookup_insert_ne by done. split; [by left | by intros [?|?]].
Qed.

Lemma marks_again u seen a : marks u seen → is_Some (u !! a) → marks u (seen ++ [a]).
Proof.
  intros Hu Ha v. rewrite elem_of_app, list_elem_of_singleton, <- (Hu v).
  split; [by left | by intros [?| ->]].
Qed.

Lemma marks_sighting u seen a :
  marks u seen → (occurrences a seen = 0%nat ↔ u !! a = None).
Proof.
  intros Hu. rewrite occurrences_zero, <- (Hu a), eq_None_not_Some. done.
Qed.

Lemma DeduplicationSeq_loop_collect m l seen (acc : list V) u (w : W) :
  seen_sets w !! m = Some u → marks u seen →
  ∃ u',
    range_slice l (DeduplicationSeq_body m (λ v acc, ret (true, acc ++ [v]))) acc w
    = (acc ++ sightings_from 0 seen l, set_seen_set m u' w)
    ∧ marks u' (seen ++ l).
Proof.
  set (body := DeduplicationSeq_body m (λ v acc, ret (true, acc ++ [v]))).
  revert seen acc u w. induction l as [|a l IH]; intros seen acc u w Hm Hu.
  - exists u. simpl. rewrite !app_nil_r, set_seen_set_id by done. done.
  - simpl.
    unfold bind at 1, body at 1, DeduplicationSeq_body, bind, load_seen_set,
      store_seen_set, ret.
    rewrite Hm. simpl. destruct (u !! a) as [b|] eqn:Ha.
    + destruct (IH (seen ++ [a]) acc u w Hm) as (u' & Hrun & Hu');
        [by apply marks_again|].
      exists u'. rewrite <- (assoc_L (++)) in Hu'. split; [|done].
      rewrite decide_False; [done|].
      rewrite (marks_sighting u seen a Hu), Ha. done.
    + destruct (IH (seen ++ [a]) (acc ++ [a]) _ _
                  (lookup_set_seen_set _ _ (<[a := true]> u) _ Hm)
                  (marks_new _ _ a Hu))
        as (u' & Hrun & Hu').
      exists u'. rewrite <- (assoc_L (++)) in Hu'. split; [|done].
      rewrite set_seen_set_twice in Hrun.
      rewrite decide_True by (by apply (marks_sighting u seen a Hu)).
      rewrite Hrun. by rewrite <- (assoc_L (++)).
Qed.

(** Deduplicating a deduplicated sequence: both maps see the same values. *)
Lemma DeduplicationSeq_loop_nested m1 m2 l seen (acc : list V) u1 u2 (w : W) :
  m1 ≠ m2 →
  seen_sets w !! m1 = Some u1 → seen_sets w !! m2 = Some u2 →
  marks u1 seen → marks u2 seen →
  ∃ u1' u2',
    range_slice l
      (DeduplicationSeq_body m1
         (DeduplicationSeq_body m2 (λ v acc, ret (true, acc ++ [v])))) acc w
    = (acc ++ sightings_from 0 seen l, set_seen_set m2 u2' (set_seen_set m1 u1' w))
    ∧ marks u1' (seen ++ l) ∧ marks u2' (seen ++ l).
Proof.
  set (body := DeduplicationSeq_body m1
                 (DeduplicationSeq_body m2 (λ v acc, ret (true, acc ++ [v])))).
  intros Hne. revert seen acc u1 u2 w.
  induction l as [|a l IH]; intros seen acc u1 u2 w Hm1 Hm2 Hu1 Hu2.
  - exists u1, u2. simpl.
    rewrite !app_nil_r, (set_seen_set_id m1), (set_seen_set_id m2) by done. done.
  - simpl.
    unfold bind at 1, body at 1, DeduplicationSeq_body at 1, bind, load_seen_set,
      store_seen_set, ret.
    rewrite Hm1. simpl. destruct (u1 !! a) as [b|] eqn:Ha.
    + destruct (IH (seen ++ [a]) acc u1 u2 w Hm1 Hm2) as (u1' & u2' & Hrun & Hu');
        [by apply marks_again | |].
      { apply marks_again; [done|]. apply Hu2, Hu1. by eexists. }
      exists u1', u2'. rewrite <- (assoc_L (++)) in Hu'. split; [|done].
      rewrite decide_False; [done|].
      rewrite (marks_sighting u1 seen a Hu1), Ha. done.
    + assert (u2 !! a = None) as Ha2.
      { apply (marks_sighting u2 seen a Hu2), (marks_sighting u1 seen a Hu1), Ha. }
      unfold DeduplicationSeq_body at 1, bind, load_seen_set, store_seen_set, ret.
      rewrite lookup_set_seen_set_ne, Hm2 by done. simpl. rewrite Ha2.
      destruct (IH (seen ++ [a]) (acc ++ [a]) (<[a := true]> u1) (<[a := true]> u2)
                  (set_seen_set m2 (<[a := true]> u2)
                     (set_seen_set m1 (<[a := true]> u1) w)))
        as (u1' & u2' & Hrun & Hu'); [| | by apply marks_new ..|].
      { rewrite lookup_set_seen_set_ne by done.
        by eapply lookup_set_seen_set. }
      { eapply lookup_set_seen_set.
        by rewrite lookup_set_seen_set_ne. }
      exists u1', u2'. rewrite <- (assoc_L (++)) in Hu'. split; [|done].
      rewrite decide_True by (by apply (marks_sighting u1 seen a Hu1)).
      rewrite Hrun, <- (assoc_L (++)). f_equal.
      rewrite (set_seen_set_commute m1 m2) by done.
      by rewrite !set_seen_set_twice.
Qed.

(** *** Fresh instances, instances driven again, and second instances *)

Lemma DuplicateSeq_collected l (w : W) :
  Z.of_nat (length l) < 2 ^ 63 →
  collected (DuplicateSeq (Values l)) w = second_sightings l.
Proof.
  intros Hlen. unfold collected, DuplicateSeq, Collect, Values, bind, new_count_table.
  set (w1 := mkWorld _ _ _ _).
  destruct (DuplicateSeq_loop_collect (length (count_tables w)) l [] [] ∅ w1)
    as (t' & Hrun & _); [by apply list_lookup_middle | apply tallies_nil | done |].
  run_ret. by rewrite Hrun.
Qed.

Lemma DuplicateSeq_driven_twice l (w : W) :
  Z.of_nat (2 * length l) < 2 ^ 63 →
  driven_twice (DuplicateSeq (Values l)) w
  = (second_sightings l, filter (λ x, occurrences x l = 1%nat) l).
Proof.
  intros Hlen. unfold driven_twice, DuplicateSeq, Collect, Values, bind, new_count_table.
  set (w1 := mkWorld _ _ _ _).
  assert (count_tables w1 !! length (count_tables w) = Some ∅) as Hm
    by (by apply list_lookup_middle).
  destruct (DuplicateSeq_loop_collect _ l [] [] ∅ w1 Hm tallies_nil)
    as (t' & Hrun & Ht'); [simpl; lia|].
  run_ret. rewrite Hrun.
  destruct (DuplicateSeq_loop_collect _ l l [] t' _
              (lookup_set_count_table _ _ t' _ Hm) Ht')
    as (t'' & Hrun' & _); [lia|].
  rewrite Hrun'. simpl. f_equal.
  rewrite <- (app_nil_r l) at 1. by apply sightings_from_1_again.
Qed.

Lemma DuplicateSeq_constructed_twice l (w : W) :
  Z.of_nat (length l) < 2 ^ 63 →
  constructed_twice (DuplicateSeq (Values l)) w
  = (second_sightings l, second_sightings l).
Proof.
  intros Hlen.
  unfold constructed_twice, DuplicateSeq, Collect, Values, bind, new_count_table.
  run_ret. simpl. set (w2 := mkWorld _ _ _ _).
  assert (count_tables w2 !! length (count_tables w) = Some ∅) as Hm1.
  { simpl. rewrite lookup_app_l by (rewrite length_app; simpl; lia).
    by apply list_lookup_middle. }
  assert (count_tables w2 !! length (count_tables w ++ [∅]) = Some ∅) as Hm2
    by (by apply list_lookup_middle).
  destruct (DuplicateSeq_loop_collect _ l [] [] ∅ w2 Hm1 tallies_nil)
    as (t' & Hrun & _); [done|].
  run_ret. rewrite Hrun.
  destruct (DuplicateSeq_loop_collect (length (count_tables w ++ [∅])) l [] [] ∅
              (set_count_table (length (count_tables w)) t' w2))
    as (t'' & Hrun' & _); [| apply tallies_nil | done |].
  { simpl. rewrite list_lookup_insert_ne; [done|]. rewrite length_app. simpl. lia. }
  by rewrite Hrun'.
Qed.

Lemma DeduplicationSeq_collected l (w : W) :
  collected (DeduplicationSeq (Values l)) w = first_sightings l.
Proof.
  unfold collected, DeduplicationSeq, Collect, Values, bind, new_seen_set.
  set (w1 := mkWorld _ _ _ _).
  destruct (DeduplicationSeq_loop_collect (length (seen_sets w)) l [] [] ∅ w1)
    as (u' & Hrun & _); [by apply list_lookup_middle | apply marks_nil |].
  run_ret. by rewrite Hrun.
Qed.

Lemma DeduplicationSeq_driven_twice l (w : W) :
  driven_twice (DeduplicationSeq (Values l)) w = (first_sightings l, []).
Proof.
  unfold driven_twice, DeduplicationSeq, Collect, Values, bind, new_seen_set.
  set (w1 := mkWorld _ _ _ _).
  assert (seen_sets w1 !! length (seen_sets w) = Some ∅) as Hm
    by (by apply list_lookup_middle).
  destruct (DeduplicationSeq_loop_collect _ l [] [] ∅ w1 Hm marks_nil)
    as (u' & Hrun & Hu').
  run_ret. rewrite Hrun.
  destruct (DeduplicationSeq_loop_collect _ l l [] u' _
              (lookup_set_seen_set _ _ u' _ Hm) Hu')
    as (u'' & Hrun' & _).
  rewrite Hrun'. simpl. f_equal. by apply sightings_from_0_seen.
Qed.

Lemma DeduplicationSeq_constructed_twice l (w : W) :
  constructed_twice (DeduplicationSeq (Values l)) w
  = (first_sightings l, first_sightings l).
Proof.
  unfold constructed_twice, DeduplicationSeq, Collect, Values, bind, new_seen_set.
  run_ret. simpl. set (w2 := mkWorld _ _ _ _).
  assert (seen_sets w2 !! length (seen_sets w) = Some ∅) as Hm1.
  { simpl. rewrite lookup_app_l by (rewrite length_app; simpl; lia).
    by apply list_lookup_middle. }
  destruct (DeduplicationSeq_loop_collect _ l [] [] ∅ w2 Hm1 marks_nil)
    as (u' & Hrun & _).
  run_ret. rewrite Hrun.
  destruct (DeduplicationSeq_loop_collect (length (seen_sets w ++ [∅])) l [] [] ∅
              (set_seen_set (length (seen_sets w)) u' w2))
    as (u'' & Hrun' & _); [| apply marks_nil |].
  { simpl. rewrite list_lookup_insert_ne by (rewrite length_app; simpl; lia).
    by apply list_lookup_middle. }
  by rewrite Hrun'.
Qed.

Lemma DeduplicationSeq_nested_collected l (w : W) :
  collected (s1 <- DeduplicationSeq (Values l) ;; DeduplicationSeq s1) w
  = first_sightings l.
Proof.
  unfold collected, DeduplicationSeq, Collect, Values, bind, new_seen_set.
  run_ret. simpl. set (w2 := mkWorld _ _ _ _).
  destruct (DeduplicationSeq_loop_nested (length (seen_sets w))
              (length (seen_sets w ++ [∅])) l [] [] ∅ ∅ w2)
    as (u1' & u2' & Hrun & _); [| | | apply marks_nil ..|].
  { rewrite length_app. simpl. lia. }
  { simpl. rewrite lookup_app_l by (rewrite length_app; simpl; lia).
    by apply list_lookup_middle. }
  { by apply list_lookup_middle. }
  run_ret. by rewrite Hrun.
Qed.
End Stateful.

(** ** Early termination *)

Section EarlyTermination.
Context {V : Type} `{Countable V} {E : Type}.
#[local] Abbreviation W := (World V E).
#[local] Abbreviation Seq := (Seq V E).
#[local] Abbreviation Visitor := (Visitor V E).

(** A combinator whose loop body [b] passes on to [yield] the elements
    that [f] maps somewhere, and skips the others. *)
Lemma filter_map_early_termination {A} (X : Seq E → M V E (Seq A))
    (b : ∀ R, Visitor A R → Visitor E R) (f : E → option A) (l : list E) (w : W) :
  (∀ s w', X s w' = ((λ R yield r, s R (b R yield) r) : Seq A, w')) →
  (∀ R yield v r w',
      b R yield v r w'
      = match f v with Some y => yield y r w' | None => (true, r, w') end) →
  collected (X (Values l)) w ≠ [] →
  early_termination X l w.
Proof.
  intros HX Hb Hne.
  assert (∀ R (yield : Visitor A R) l' r w',
            range_slice l' (λ v r, log_pull v ;; b R yield v r) r w'
            = range_slice l'
                (λ v r, log_pull v ;;
                   match f v with Some y => yield y r | None => ret (true, r) end)
                r w') as Hobs.
  { intros. apply range_slice_ext. intros v r' w''.
    unfold bind, log_pull, log_pulls. rewrite Hb. by destruct (f v). }
  assert (Exists (λ v, is_Some (f v)) l) as Hex.
  { unfold collected, bind, Collect, Values in Hne. rewrite HX in Hne.
    erewrite range_slice_ext in Hne.
    - rewrite (range_slice_omap_collect f) in Hne. simpl in Hne.
      clear -Hne. induction l as [|a l IH]; [done|]. simpl in Hne.
      destruct (f a) eqn:Ha; [left; by rewrite Ha | right; by apply IH].
    - intros v r w'. rewrite Hb. by destruct (f v). }
  apply first_split in Hex as (q & x & rest & -> & Hq & [y Hy]); [|apply _].
  assert (Forall (λ v, f v = None) q) as Hq'.
  { eapply Forall_impl; [exact Hq|]. intros v Hv. simpl in Hv.
    destruct (f v); [by destruct Hv | done]. }
  exists q, x, rest, y. split; [done|].
  unfold drive_stop, bind, Observed, Values. rewrite !HX. rewrite !Hobs.
  rewrite <- (app_nil_r q) at 1. rewrite !range_slice_observed_silent by done.
  simpl. unfold bind at 1 2, log_pull, log_pulls. rewrite Hy.
  unfold stop, ret. simpl. by rewrite <- (assoc_L (++)).
Qed.

Lemma FilterSeq_stops (fn : E → bool) (l : list E) (w : W) :
  collected (FilterSeq (Values l) fn) w ≠ [] →
  early_termination (λ s, FilterSeq s fn) l w.
Proof.
  intros Hne.
  apply (filter_map_early_termination (λ s, FilterSeq s fn)
           (λ R yield v r, if fn v then yield v r else ret (true, r))
           (λ v, if fn v then Some v else None) l w); [done | | done].
  intros. by destruct (fn v).
Qed.

Lemma PatternSeq_stops `{Dynamic E} {Regexp} (MatchString : Regexp → string → bool)
    (pattern : Regexp) (l : list E) (w : W) :
  collected (PatternSeq MatchString (Values l) pattern) w ≠ [] →
  early_termination (λ s, PatternSeq MatchString s pattern) l w.
Proof.
  intros Hne.
  apply (filter_map_early_termination (λ s, PatternSeq MatchString s pattern)
           (λ R yield v r,
              if MatchString pattern (txt v) then yield v r else ret (true, r))
           (λ v, if MatchString pattern (txt v) then Some v else None) l w); [done | | done].
  intros. by destruct (MatchString pattern (txt v)).
Qed.

Lemma StringPatternSeq_stops `{Dynamic E} (pattern : string) (l : list E) (w : W) :
  collected (StringPatternSeq (Values l) pattern) w ≠ [] →
  early_termination (λ s, StringPatternSeq s pattern) l w.
Proof.
  intros Hne.
  apply (filter_map_early_termination (λ s, StringPatternSeq s pattern)
           (λ R yield v r,
              if decide (txt v = pattern) then yield v r else ret (true, r))
           (λ v, if decide (txt v = pattern) then Some v else None) l w); [done | | done].
  intros. by case_decide.
Qed.

Lemma ReplaceFuncSeq_stops (fn : E → E) (l : list E) (w : W) :
  collected (ReplaceFuncSeq (Values l) fn) w ≠ [] →
  early_termination (λ s, ReplaceFuncSeq s fn) l w.
Proof.
  intros Hne.
  by apply (filter_map_early_termination (λ s, ReplaceFuncSeq s fn)
              (λ R yield v r, yield (fn v) r) (λ v, Some (fn v)) l w).
Qed.

Lemma ConvertSeq_stops {T} (fn : E → T) (l : list E) (w : W) :
  collected (ConvertSeq (Values l) fn) w ≠ [] →
  early_termination (λ s, ConvertSeq s fn) l w.
Proof.
  intros Hne.
  by apply (filter_map_early_termination (λ s, ConvertSeq s fn)
              (λ R yield v r, yield (fn v) r) (λ v, Some (fn v)) l w).
Qed.

Lemma AnySeq_stops (l : list E) (w : W) :
  collected (AnySeq (Values l)) w ≠ [] →
  early_termination (λ s, AnySeq s) l w.
Proof.
  intros Hne.
  by apply (filter_map_early_termination (λ s, AnySeq s)
              (λ R yield v r, yield (to_any v) r) (λ v, Some (to_any v)) l w).
Qed.

(** A source in which the map iteration of [GroupSeq] finds a group. *)
Lemma GroupSeq_stops {Hk} `{Countable Hk}
    (range_map : nat → gmap Hk (list E) → list (Hk * list E))
    (fn : E → Hk) (l : list E) (w : W) :
  (∀ seed groups, range_map seed groups ≡ₚ map_to_list groups) →
  l ≠ [] →
  early_termination_eager (GroupSeq range_map (Observed (Values l)) fn) w.
Proof.
  intros Hperm Hl.
  unfold early_termination_eager, GroupSeq. unfold bind at 1.
  unfold Observed, Values. rewrite GroupSeq_loop. run_ret.
  unfold bind at 1, next_entropy.
  assert (range_map (entropy (logged l w)) (grouped fn ∅ l) ≠ []) as Hne.
  { intros Hnil. apply (grouped_non_empty fn l ∅); [by right|].
    apply map_to_list_empty_iff, Permutation_nil_r. by rewrite <- Hperm, Hnil. }
  destruct (range_map _ _) as [|[h g] groups]; [done|].
  simpl. unfold bind, stop, ret. simpl. split; [by eexists | done].
Qed.
End EarlyTermination.

Section EarlyTerminationComparable.
Context {V : Type} `{Countable V}.
#[local] Abbreviation W := (World V V).

Lemma RemoveSeq_stops (ex l : list V) (w : W) :
  collected (RemoveSeq (Values l) (Values ex)) w ≠ [] →
  early_termination (λ s, RemoveSeq s (Values ex)) l w.
Proof.
  intros Hne.
  apply (filter_map_early_termination (λ s, RemoveSeq s (Values ex))
           (λ R yield v1 r,
              found <- Values ex bool (λ v2 found,
                         if decide (v1 = v2) then ret (false, true)
                         else ret (true, found)) false ;;
              if negb found then yield v1 r else ret (true, r))
           (λ v, if bool_decide (v ∈ ex) then None else Some v) l w); [done | | done].
  intros. unfold bind, Values. rewrite range_slice_found. by case_bool_decide.
Qed.

Lemma HashSeq_stops (Sum64 : V → Z) (l : list V) (w : W) :
  collected (HashSeq Sum64 (Values l)) w ≠ [] →
  early_termination (λ s, HashSeq Sum64 s) l w.
Proof.
  intros Hne.
  by apply (filter_map_early_termination (λ s, HashSeq Sum64 s)
              (λ R yield v r, yield (Sum64 v, v) r) (λ v, Some (Sum64 v, v)) l w).
Qed.

Lemma ReplaceSeq_stops (g : gmap V V) (l : list V) (w : W) :
  collected (ReplaceSeq (Values l) g) w ≠ [] →
  early_termination (λ s, ReplaceSeq s g) l w.
Proof.
  intros Hne.
  apply (filter_map_early_termination (λ s, ReplaceSeq s g)
           (λ R yield v r,
              match g !! v with Some r' => yield r' r | None => yield v r end)
           (λ v, Some (default v (g !! v))) l w); [done | | done].
  intros. by destruct (g !! v).
Qed.

Lemma DeduplicationSeq_stops (l : list V) (w : W) :
  collected (DeduplicationSeq (Values l)) w ≠ [] →
  early_termination DeduplicationSeq l w.
Proof.
  rewrite DeduplicationSeq_collected. destruct l as [|x rest]; [done|]. intros _.
  exists [], x, rest, x. split; [done|].
  unfold drive_stop, DeduplicationSeq, Observed, Values, bind, new_seen_set.
  run_ret. simpl.
  unfold bind, log_pull, log_pulls, DeduplicationSeq_body, bind, load_seen_set,
    store_seen_set, stop, ret.
  simpl. rewrite list_lookup_middle by done. simpl.
  by rewrite lookup_empty.
Qed.

Lemma DuplicateSeq_collected_NoDup (l : list V) (w : W) :
  NoDup l → collected (DuplicateSeq (Values l)) w = [].
Proof.
  intros Hnd. unfold collected, DuplicateSeq, Collect, Values, bind, new_count_table.
  run_ret. simpl. set (w1 := mkWorld _ _ _ _). set (m := length (count_tables w)).
  destruct (DuplicateSeq_loop_silent (λ _, []) m l ∅
              (λ v acc, ret (true, acc ++ [v])) [] w1)
    as (t' & Hrun & _); [by apply list_lookup_middle | done | done |].
  specialize (Hrun []). rewrite app_nil_r in Hrun. simpl in Hrun.
  erewrite range_slice_ext; [by rewrite Hrun|].
  intros v r w'. unfold bind at 1, log_pulls. by rewrite logged_nil.
Qed.

Lemma drive_stop_DuplicateSeq (l : list V) (w : W) :
  drive_stop (DuplicateSeq (Observed (Values l))) w
  = range_slice l
      (λ v r, log_pulls [v] ;;
              DuplicateSeq_body (length (count_tables w)) stop v r) []
      (mkWorld (count_tables w ++ [∅]) (seen_sets w) (pulled w) (entropy w)).
Proof. done. Qed.

Lemma DuplicateSeq_stops (l : list V) (w : W) :
  collected (DuplicateSeq (Values l)) w ≠ [] →
  early_termination DuplicateSeq l w.
Proof.
  intros Hne.
  destruct (first_repeat_split l) as (q & x & rest & -> & Hq & Hx).
  { intros Hnd. by apply Hne, DuplicateSeq_collected_NoDup. }
  exists q, x, rest, x. split; [done|].
  rewrite !drive_stop_DuplicateSeq.
  set (w1 := mkWorld _ _ _ _). set (m := length (count_tables w)).
  destruct (DuplicateSeq_loop_silent (λ v, [v]) m q ∅ stop [] w1)
    as (t' & Hrun & Hin & _); [by apply list_lookup_middle | done | done |].
  rewrite concat_map_singleton in Hrun.
  rewrite (Hrun (x :: rest)).
  rewrite <- (app_nil_r q) at 1. rewrite (Hrun []). split; [done|].
  simpl.
  unfold bind, log_pulls, DuplicateSeq_body, bind, load_count_table,
    store_count_table, stop, ret.
  simpl. rewrite list_lookup_insert_eq
    by (rewrite length_app; simpl; unfold m; lia).
  simpl. rewrite (Hin x Hx). simpl.
  by rewrite <- (assoc_L (++)).
Qed.
End EarlyTerminationComparable.


(** ** The tests of the package, run on the embedding *)

Section Tests.
#[local] Abbreviation w0 := (fresh_world (V:=Z) (E:=Z)).
#[local] Abbreviation in_order := (λ (_ : nat) (m : gmap bool (list Z)), map_to_list m).

Example TestAnySeq :
  length (collected (AnySeq (Values ["1"; "2"; "3"]%string)) w0) = 3%nat.
Proof. done. Qed.

Example TestFilterSeq :
  collected (FilterSeq (Values [1; 2; 3; 4; 5]) Z.even) w0 = [2; 4].
Proof. done. Qed.

Example TestStringPatternSeq_string :
  collected (StringPatternSeq (Values ["apple"; "banana"; "cherry"]%string) "banana") w0
  = ["banana"%string].
Proof. done. Qed.

Example TestStringPatternSeq_int :
  collected (StringPatternSeq (Values [1; 2; 3]) "2") w0 = [2].
Proof. by vm_compute. Qed.

Example TestGroupSeq :
  collected (GroupSeq in_order (Values [1; 2; 3; 4; 5; 6]) Z.even) w0
  ≡ₚ [[2; 4; 6]; [1; 3; 5]].
Proof. vm_compute. apply perm_swap. Qed.

Example TestCountSeq : CountSeq (Values [1; 2; 3; 4; 5]) w0 = (5, w0).
Proof. done. Qed.

Example TestSumFuncSeq_success :
  SumFuncSeq (Values [1; 2; 3]) (λ v, (v, @None string)) w0 = ((6, None), w0).
Proof. done. Qed.

Example TestSumFuncSeq_error :
  SumFuncSeq (Values ["1"; "a"; "3"]%string)
    (λ s, if decide (s = "a"%string) then (0, Some "invalid number"%string)
          else (1, None)) w0
  = ((0, Some "invalid number"%string), w0).
Proof. done. Qed.

Example TestIsEmptySeq :
  IsEmptySeq (Values (@nil Z)) w0 = (true, w0)
  ∧ IsEmptySeq (Values [1]) w0 = (false, w0).
Proof. done. Qed.

Example TestReplaceFuncSeq :
  collected (ReplaceFuncSeq (Values [1; 2; 3]) (λ v, v * 10)) w0 = [10; 20; 30].
Proof. done. Qed.

Example TestReplaceSeq :
  collected (ReplaceSeq (Values [1; 2; 3]) {[1 := 10; 3 := 30]}) w0 = [10; 2; 30].
Proof. by vm_compute. Qed.

Example TestConvertSeq :
  collected (ConvertSeq (Values [1; 2; 3]) (λ v : Z, pretty v)) w0
  = ["1"; "2"; "3"]%string.
Proof. by vm_compute. Qed.
End Tests.

(** * The properties of the design document *)

(** C5. [SumFuncSeq] is fail-fast.  If [fn] succeeds on every element of
    the source, the result is the sum of all the values of [fn] with a nil
    error, and the whole source has been consumed.  If [fn] fails on some
    element, the result is the zero value together with the error of the
    first element [x] on which [fn] fails, and the source has handed out
    the elements up to [x] and none after it. *)
Theorem SumFuncSeq_fail_fast {V} `{Countable V} {S T Err} `{Ordered T}
    (fn : S → T * option Err) (l : list S) (w : World V S) :
  (Forall (λ v, (fn v).2 = None) l →
     SumFuncSeq (Observed (Values l)) fn w
     = ((foldl plus zero (map (λ v, (fn v).1) l), None), logged l w))
  ∧ (Exists (λ v, is_Some (fn v).2) l →
     ∃ q x rest e,
       l = q ++ x :: rest ∧ Forall (λ v, (fn v).2 = None) q
       ∧ (fn x).2 = Some e
       ∧ SumFuncSeq (Observed (Values l)) fn w
         = ((zero, Some e), logged (q ++ [x]) w)).
Proof.
  split.
  - intros Hok. unfold SumFuncSeq, Observed, Values, bind at 1.
    by rewrite SumFuncSeq_loop_ok.
  - intros Hex. apply first_split in Hex as (q & x & rest & -> & Hq & [e He]);
      [| apply _].
    assert (Forall (λ v, (fn v).2 = None) q) as Hq'.
    { eapply Forall_impl; [exact Hq|]. intros v Hv. simpl in Hv.
      destruct (fn v).2; [by destruct Hv | done]. }
    exists q, x, rest, e. repeat split; [done..|].
    unfold SumFuncSeq, Observed, Values, bind at 1.
    by destruct (SumFuncSeq_loop_err fn q x rest e zero w Hq' He) as [partial ->].
Qed.

Lemma SumFuncSeq_fail_fast_witness :
  let fn := λ v : Z, if decide (v = 2) then (0, Some "invalid number"%string)
                     else (v, None) in
  Exists (λ v, is_Some (fn v).2) [1; 2; 3]
  ∧ ∃ q x rest e,
      [1; 2; 3] = q ++ x :: rest ∧ Forall (λ v, (fn v).2 = None) q
      ∧ (fn x).2 = Some e
      ∧ SumFuncSeq (V:=Z) (Observed (Values [1; 2; 3])) fn fresh_world
        = ((zero, Some e), logged (q ++ [x]) fresh_world).
Proof.
  intros fn.
  assert (Exists (λ v, is_Some (fn v).2) [1; 2; 3]) as Hex.
  { apply Exists_cons_tl, Exists_cons_hd. by eexists. }
  split; [exact Hex|].
  exact (proj2 (SumFuncSeq_fail_fast fn [1; 2; 3] fresh_world) Hex).
Defined.

(** C6. [SumSeq] collects the source, sorts it ascending and adds in that
    order, so its result is the same for every permutation of the source;
    for the [int]s 3, 1, 2 in any order it is 6. *)
Theorem SumSeq_order_independent :
  (∀ {V} `{Countable V} {E S} `{Ordered S} (Sort : list S → list S),
      (∀ l, Sort l ≡ₚ l) → (∀ l, Sorted ascending (Sort l)) →
      Transitive (ascending (T:=S)) → AntiSymm (=) (ascending (T:=S)) →
      ∀ (l l' : list S) (w : World V E),
        SumSeq Sort (Values l) w = (foldl plus zero (Sort l), w)
        ∧ (l ≡ₚ l' → SumSeq Sort (Values l') w = SumSeq Sort (Values l) w))
  ∧ (∀ {V} `{Countable V} {E} (Sort : list Z → list Z),
      (∀ l, Sort l ≡ₚ l) → (∀ l, Sorted ascending (Sort l)) →
      ∀ (l : list Z) (w : World V E),
        l ≡ₚ [3; 1; 2] → SumSeq Sort (Values l) w = (6, w)).
Proof.
  split.
  - intros V ?? E S ? Sort Hperm Hsorted ?? l l' w.
    rewrite !SumSeq_Values. split; [done|].
    intros Hl. by rewrite (Sort_unique Sort Hperm Hsorted _ _ l l' Hl).
  - intros V ?? E Sort Hperm Hsorted l w Hl.
    rewrite SumSeq_Values.
    assert (Sort l = [1; 2; 3]) as ->; [|done].
    apply (Sorted_unique ascending); [apply Hsorted | |].
    + by repeat constructor.
    + rewrite Hperm, Hl. etrans; [apply perm_swap | apply perm_skip, perm_swap].
Qed.

Lemma SumSeq_order_independent_witness :
  let Sort := merge_sort (ascending (T:=Z)) in
  ([2; 3; 1] ≡ₚ [3; 1; 2]
   ∧ SumSeq (V:=Z) (E:=Z) Sort (Values [2; 3; 1]) fresh_world = (6, fresh_world))
  ∧ ([3; 1; 2] ≡ₚ [1; 2; 3]
     ∧ SumSeq (V:=Z) (E:=Z) Sort (Values [1; 2; 3]) fresh_world
       = SumSeq Sort (Values [3; 1; 2]) fresh_world).
Proof.
  intros Sort.
  assert (∀ l, Sort l ≡ₚ l) as Hperm by apply merge_sort_Permutation.
  assert (∀ l, Sorted ascending (Sort l)) as Hsorted
    by (intros l; apply (Sorted_merge_sort ascending)).
  assert ([2; 3; 1] ≡ₚ [3; 1; 2]) as H1
    by (etrans; [apply perm_swap | apply perm_skip, perm_swap]).
  assert ([3; 1; 2] ≡ₚ [1; 2; 3]) as H2
    by (etrans; [apply perm_swap | apply perm_skip, perm_swap]).
  split; (split; [done|]).
  - exact (proj2 SumSeq_order_independent Z _ _ Z Sort Hperm Hsorted
             [2; 3; 1] fresh_world H1).
  - exact (proj2 (proj1 SumSeq_order_independent Z _ _ Z Z _ Sort Hperm Hsorted
             _ _ [3; 1; 2] [1; 2; 3] fresh_world) H2).
Defined.

(** C7. [RemoveSeq(s, g)] yields, in the order of the source, exactly the
    elements of [s] that are equal to no element of the restartable
    sequence [g]: [1,2,3,4,5] minus [2,4] is [1,3,5], and removing nothing
    leaves the source as it is. *)
Theorem RemoveSeq_yields_non_members :
  (∀ {V} `{Countable V} {E} (l ex : list V) (w : World V E),
      let out := collected (RemoveSeq (Values l) (Values ex)) w in
      out = List.filter (λ v, bool_decide (v ∉ ex)) l
      ∧ sublist out l
      ∧ ∀ v, v ∈ out ↔ v ∈ l ∧ v ∉ ex)
  ∧ (∀ {E} (w : World Z E),
      collected (RemoveSeq (Values [1; 2; 3; 4; 5]) (Values [2; 4])) w = [1; 3; 5])
  ∧ (∀ {V} `{Countable V} {E} (l : list V) (w : World V E),
      collected (RemoveSeq (Values l) (Values [])) w = l).
Proof.
  split; [|split].
  - intros V ?? E l ex w. simpl. rewrite RemoveSeq_collected.
    split; [done|]. split; [apply filter_restricts|].
    intros v. rewrite list_elem_of_In, filter_In, <- list_elem_of_In.
    by rewrite bool_decide_eq_true.
  - intros E w. by rewrite RemoveSeq_collected.
  - intros V ?? E l w. rewrite RemoveSeq_collected.
    induction l as [|a l IH]; [done|]. simpl in *. by rewrite IH.
Qed.

(** C9. Order preservation.  What [FilterSeq], [PatternSeq] and
    [StringPatternSeq] yield is the source restricted to the elements they
    accept: a subsequence of the source, at most as long.  What
    [ReplaceFuncSeq], [ReplaceSeq], [ConvertSeq] and [AnySeq] yield is the
    elementwise image of the source, in its order and of its length. *)
Theorem order_preservation {V} `{Countable V} {E S T Regexp} `{Dynamic S}
    (MatchString : Regexp → string → bool)
    (l : list S) (lv : list V) (w : World V E) :
  (∀ fn,
      collected (FilterSeq (Values l) fn) w = List.filter fn l
      ∧ restricts l (collected (FilterSeq (Values l) fn) w))
  ∧ (∀ pattern,
      collected (PatternSeq MatchString (Values l) pattern) w
      = List.filter (λ v, MatchString pattern (txt v)) l
      ∧ restricts l (collected (PatternSeq MatchString (Values l) pattern) w))
  ∧ (∀ pattern,
      collected (StringPatternSeq (Values l) pattern) w
      = List.filter (λ v, bool_decide (txt v = pattern)) l
      ∧ restricts l (collected (StringPatternSeq (Values l) pattern) w))
  ∧ (∀ fn, image_of fn l (collected (ReplaceFuncSeq (Values l) fn) w))
  ∧ (∀ g, image_of (λ v, default v (g !! v)) lv
            (collected (ReplaceSeq (Values lv) g) w))
  ∧ (∀ fn : S → T, image_of fn l (collected (ConvertSeq (Values l) fn) w))
  ∧ image_of to_any l (collected (AnySeq (Values l)) w).
Proof.
  repeat split; intros;
    rewrite ?FilterSeq_collected, ?PatternSeq_collected,
      ?StringPatternSeq_collected, ?ReplaceFuncSeq_collected,
      ?ReplaceSeq_collected, ?ConvertSeq_collected, ?AnySeq_collected;
    try done; apply filter_restricts || apply length_map.
Qed.

(** C10. On an empty source [CountSeq] returns 0, [IsEmptySeq] returns
    true, [SumSeq] returns the zero value of the element type and
    [SumFuncSeq] the zero value of the result type with a nil error. *)
Theorem empty_source_neutral {V} `{Countable V} {E S T Err}
    `{Ordered S} `{Ordered T}
    (Sort : list S → list S) (fn : S → T * option Err) (w : World V E) :
  (∀ l, Sort l ≡ₚ l) →
  CountSeq (Values (@nil S)) w = (0, w)
  ∧ IsEmptySeq (Values (@nil S)) w = (true, w)
  ∧ SumSeq Sort (Values []) w = (zero, w)
  ∧ SumFuncSeq (Values []) fn w = ((zero, None), w).
Proof.
  intros Hperm. repeat split; [].
  rewrite SumSeq_Values.
  by rewrite (proj1 (Permutation_nil_r (Sort [])) (Hperm [])).
Qed.

Lemma empty_source_neutral_witness :
  (∀ l : list Z, merge_sort ascending l ≡ₚ l)
  ∧ CountSeq (V:=Z) (E:=Z) (Values (@nil Z)) fresh_world = (0, fresh_world)
  ∧ IsEmptySeq (V:=Z) (E:=Z) (Values (@nil Z)) fresh_world = (true, fresh_world)
  ∧ SumSeq (V:=Z) (E:=Z) (merge_sort ascending) (Values (@nil Z)) fresh_world
    = (0, fresh_world)
  ∧ SumFuncSeq (V:=Z) (E:=Z) (Values (@nil Z)) (λ v, (v, @None string)) fresh_world
    = ((0, None), fresh_world).
Proof.
  split; [apply merge_sort_Permutation|].
  exact (empty_source_neutral (V:=Z) (E:=Z) (S:=Z) (T:=Z)
           (merge_sort ascending) (λ v, (v, @None string)) fresh_world
           (merge_sort_Permutation _)).
Defined.

(** C4. [DuplicateSeq] yields the second sightings of the source, in the
    order in which they occur: every value is yielded at most once, a
    value is yielded exactly when it occurs at least twice (so a value
    that occurs once is never yielded, and one that occurs three times or
    more is yielded at its second occurrence only); for
    [1,2,3,1,4,2,5,1] the output is [1,2].  The source is no longer than
    the largest [int] (as every slice is), so that no count overflows. *)
Theorem DuplicateSeq_second_sightings :
  (∀ {V} `{Countable V} {E} (l : list V) (w : World V E),
      Z.of_nat (length l) ≤ Int.max_int →
      let out := collected (DuplicateSeq (Values l)) w in
      out = second_sightings l
      ∧ NoDup out
      ∧ ∀ v, v ∈ out ↔ (2 ≤ occurrences v l)%nat)
  ∧ (∀ {E} (w : World Z E),
      collected (DuplicateSeq (Values [1; 2; 3; 1; 4; 2; 5; 1])) w = [1; 2]).
Proof.
  split.
  - intros V ?? E l w Hlen. simpl.
    rewrite DuplicateSeq_collected by (unfold Int.max_int in Hlen; lia).
    split; [done|]. split; [apply NoDup_sightings_from|].
    apply elem_of_second_sightings.
  - intros E w. by rewrite DuplicateSeq_collected.
Qed.

Lemma DuplicateSeq_second_sightings_witness :
  let l := [1; 2; 3; 1; 4; 2; 5; 1] in
  let out := collected (DuplicateSeq (Values l)) (fresh_world (V:=Z) (E:=Z)) in
  Z.of_nat (length l) ≤ Int.max_int
  ∧ out = second_sightings l
  ∧ NoDup out
  ∧ ∀ v, v ∈ out ↔ (2 ≤ occurrences v l)%nat.
Proof.
  intros l out.
  assert (Z.of_nat (length l) ≤ Int.max_int) as Hlen by (by vm_compute).
  split; [exact Hlen|].
  exact (proj1 DuplicateSeq_second_sightings Z _ _ Z l fresh_world Hlen).
Defined.

(** C8. Deduplication is idempotent: deduplicating a deduplicated
    sequence collects what deduplicating the sequence collects, namely
    the first sightings of the source in the order in which they occur,
    every value of the source exactly once. *)
Theorem DeduplicationSeq_idempotent :
  (∀ {V} `{Countable V} {E} (l : list V) (w : World V E),
      let out := collected (DeduplicationSeq (Values l)) w in
      collected (s1 <- DeduplicationSeq (Values l) ;; DeduplicationSeq s1) w = out
      ∧ out = first_sightings l
      ∧ NoDup out
      ∧ ∀ v, v ∈ out ↔ v ∈ l)
  ∧ (∀ {E} (w : World Z E),
      collected (DeduplicationSeq (Values [1; 2; 2; 3; 1; 4; 1])) w = [1; 2; 3; 4]).
Proof.
  split.
  - intros V ?? E l w. simpl.
    rewrite DeduplicationSeq_nested_collected, DeduplicationSeq_collected.
    split; [done|]. split; [done|]. split; [apply NoDup_sightings_from|].
    apply elem_of_first_sightings.
  - intros E w. by rewrite DeduplicationSeq_collected.
Qed.

(** C3, as the claim states it, fails: a [DeduplicationSeq] over 1, 2, 3
    yields all three on its first traversal and nothing on its second; a
    [DuplicateSeq] over 1 yields nothing first and 1 on its second
    traversal. *)
Lemma redrive_differs :
  driven_twice (DeduplicationSeq (Values [1; 2; 3])) (fresh_world (V:=Z) (E:=Z))
  = ([1; 2; 3], [])
  ∧ driven_twice (DuplicateSeq (Values [1])) (fresh_world (V:=Z) (E:=Z))
    = ([], [1])
  ∧ ¬ (∀ (l : list Z) (w : World Z Z),
         (driven_twice (DeduplicationSeq (Values l)) w).2
         = (driven_twice (DeduplicationSeq (Values l)) w).1).
Proof.
  split; [by vm_compute|]. split; [by vm_compute|].
  intros Hclaim. specialize (Hclaim [1; 2; 3] fresh_world).
  by vm_compute in Hclaim.
Qed.

(** C3, amended.  The map of a [DuplicateSeq] or [DeduplicationSeq] is
    made by the construction call and lives as long as the sequence it
    returns.  The first traversal of a fresh instance over a restartable
    source yields the output of the combinator; a second traversal of the
    same instance goes on from the map the first one left: a
    [DeduplicationSeq] yields nothing, a [DuplicateSeq] yields the values
    that occur exactly once in the source.  Two construction calls on the
    same source have maps of their own, and each of the two sequences
    yields what a fresh instance yields. *)
Theorem state_per_construction {V} `{Countable V} {E} (l : list V) (w : World V E) :
  Z.of_nat (2 * length l) ≤ Int.max_int →
  driven_twice (DeduplicationSeq (Values l)) w = (first_sightings l, [])
  ∧ driven_twice (DuplicateSeq (Values l)) w
    = (second_sightings l, filter (λ x, occurrences x l = 1%nat) l)
  ∧ constructed_twice (DeduplicationSeq (Values l)) w
    = (collected (DeduplicationSeq (Values l)) w,
       collected (DeduplicationSeq (Values l)) w)
  ∧ constructed_twice (DuplicateSeq (Values l)) w
    = (collected (DuplicateSeq (Values l)) w,
       collected (DuplicateSeq (Values l)) w).
Proof.
  intros Hlen. unfold Int.max_int in Hlen.
  rewrite DeduplicationSeq_driven_twice, DuplicateSeq_driven_twice by lia.
  rewrite DeduplicationSeq_constructed_twice, DeduplicationSeq_collected.
  rewrite DuplicateSeq_constructed_twice, DuplicateSeq_collected by lia.
  done.
Qed.

Lemma state_per_construction_witness :
  let l := [1; 2; 2; 3; 1; 4; 1] in
  let w := fresh_world (V:=Z) (E:=Z) in
  Z.of_nat (2 * length l) ≤ Int.max_int
  ∧ driven_twice (DeduplicationSeq (Values l)) w = (first_sightings l, [])
  ∧ driven_twice (DuplicateSeq (Values l)) w
    = (second_sightings l, filter (λ x, occurrences x l = 1%nat) l)
  ∧ constructed_twice (DeduplicationSeq (Values l)) w
    = (collected (DeduplicationSeq (Values l)) w,
       collected (DeduplicationSeq (Values l)) w)
  ∧ constructed_twice (DuplicateSeq (Values l)) w
    = (collected (DuplicateSeq (Values l)) w,
       collected (DuplicateSeq (Values l)) w).
Proof.
  intros l w.
  assert (Z.of_nat (2 * length l) ≤ Int.max_int) as Hlen by (by vm_compute).
  split; [exact Hlen|].
  exact (state_per_construction l w Hlen).
Defined.

(** C1. Early termination.  Whenever a combinator over a source yields
    anything at all, a visitor that always answers [false] is called
    exactly once: the call happens while the source hands out some
    element [x], nothing was yielded on the elements in front of [x],
    and no element behind [x] is ever taken from the source.  [GroupSeq]
    has taken its whole source during construction; driven over a
    non-empty source it calls the visitor once and takes nothing more. *)
Theorem early_termination_of_every_combinator
    {V} `{Countable V} {S T Regexp Hk} `{Dynamic S} `{Countable Hk}
    (MatchString : Regexp → string → bool) (Sum64 : V → Z)
    (range_map : nat → gmap Hk (list S) → list (Hk * list S))
    (l : list S) (w : World V S) (lv : list V) (wv : World V V) :
  (∀ fn, collected (FilterSeq (Values l) fn) w ≠ [] →
         early_termination (λ s, FilterSeq s fn) l w)
  ∧ (∀ ex, collected (RemoveSeq (Values lv) (Values ex)) wv ≠ [] →
           early_termination (λ s, RemoveSeq s (Values ex)) lv wv)
  ∧ (∀ pattern, collected (PatternSeq MatchString (Values l) pattern) w ≠ [] →
                early_termination (λ s, PatternSeq MatchString s pattern) l w)
  ∧ (∀ pattern, collected (StringPatternSeq (Values l) pattern) w ≠ [] →
                early_termination (λ s, StringPatternSeq s pattern) l w)
  ∧ (collected (DuplicateSeq (Values lv)) wv ≠ [] →
     early_termination DuplicateSeq lv wv)
  ∧ (collected (DeduplicationSeq (Values lv)) wv ≠ [] →
     early_termination DeduplicationSeq lv wv)
  ∧ (collected (HashSeq Sum64 (Values lv)) wv ≠ [] →
     early_termination (λ s, HashSeq Sum64 s) lv wv)
  ∧ (∀ fn : S → Hk,
        (∀ seed groups, range_map seed groups ≡ₚ map_to_list groups) →
        l ≠ [] →
        early_termination_eager (GroupSeq range_map (Observed (Values l)) fn) w)
  ∧ (∀ fn, collected (ReplaceFuncSeq (Values l) fn) w ≠ [] →
           early_termination (λ s, ReplaceFuncSeq s fn) l w)
  ∧ (∀ g, collected (ReplaceSeq (Values lv) g) wv ≠ [] →
          early_termination (λ s, ReplaceSeq s g) lv wv)
  ∧ (∀ fn : S → T, collected (ConvertSeq (Values l) fn) w ≠ [] →
                   early_termination (λ s, ConvertSeq s fn) l w)
  ∧ (collected (AnySeq (Values l)) w ≠ [] →
     early_termination (λ s, AnySeq s) l w).
Proof.
  repeat split; intros.
  - by apply FilterSeq_stops.
  - by apply RemoveSeq_stops.
  - by apply PatternSeq_stops.
  - by apply StringPatternSeq_stops.
  - by apply DuplicateSeq_stops.
  - by apply DeduplicationSeq_stops.
  - by apply HashSeq_stops.
  - by apply GroupSeq_stops.
  - by apply ReplaceFuncSeq_stops.
  - by apply ReplaceSeq_stops.
  - by apply ConvertSeq_stops.
  - by apply AnySeq_stops.
Qed.

Lemma early_termination_of_every_combinator_witness :
  let w := fresh_world (V:=Z) (E:=Z) in
  let any_char := λ (_ : unit) (txt : string), negb (String.eqb txt "") in
  let in_any_order := λ (_ : nat) (m : gmap Z (list Z)), map_to_list m in
  let always := λ _ : Z, true in
  early_termination (λ s, FilterSeq s always) [1; 2; 3; 4; 5] w
  ∧ early_termination (λ s, RemoveSeq s (Values [])) [1; 2; 3] w
  ∧ early_termination (λ s, PatternSeq any_char s ()) [1; 2; 3] w
  ∧ early_termination (λ s, StringPatternSeq s "2") [1; 2; 3] w
  ∧ early_termination DuplicateSeq [1; 1; 2; 2] w
  ∧ early_termination DeduplicationSeq [1; 2; 3] w
  ∧ early_termination (λ s, HashSeq (λ v, v) s) [1; 2; 3] w
  ∧ early_termination_eager
      (GroupSeq in_any_order (Observed (Values [1; 2])) (λ v, v)) w
  ∧ early_termination (λ s, ReplaceFuncSeq s (λ v, v)) [1; 2; 3] w
  ∧ early_termination (λ s, ReplaceSeq s {[1 := 10]}) [1; 2; 3] w
  ∧ early_termination (λ s, ConvertSeq s (λ v, v)) [1; 2; 3] w
  ∧ early_termination (λ s, AnySeq s) [1; 2; 3] w.
Proof.
  intros w any_char in_any_order always.
  pose proof (early_termination_of_every_combinator (T:=Z)
                any_char (λ v, v) in_any_order [1; 2; 3] w [1; 2; 3] w)
    as (_ & Hremove & Hpattern & Hstring & _ & Hdedup & Hhash & _
        & Hfunc & Hreplace & Hconvert & Hany).
  pose proof (early_termination_of_every_combinator (T:=Z)
                any_char (λ v, v) in_any_order [1; 2; 3; 4; 5] w [1; 1; 2; 2] w)
    as (Hfilter & _ & _ & _ & Hdup & _).
  pose proof (early_termination_of_every_combinator (T:=Z)
                any_char (λ v, v) in_any_order [1; 2] w [1] w)
    as (_ & _ & _ & _ & _ & _ & _ & Hgroup & _).
  split; [by apply Hfilter|]. split; [by apply Hremove|].
  split; [by apply Hpattern|]. split; [by apply Hstring|].
  split; [by apply Hdup|]. split; [by apply Hdedup|].
  split; [by apply Hhash|]. split; [by apply Hgroup|].
  split; [by apply Hfunc|]. split; [by apply Hreplace|].
  split; [by apply Hconvert|]. by apply Hany.
Defined.

(** C2, as the claim states it, fails for [GroupSeq]: constructing it
    over the observed source 1, 2 has taken both elements before the
    returned sequence is driven. *)
Lemma GroupSeq_construction_drains :
  let c := λ l : list Z,
    GroupSeq (λ _ (m : gmap Z (list Z)), map_to_list m) (Observed (Values l)) (λ v, v) in
  pulled (c [1; 2] (fresh_world (V:=Z) (E:=Z))).2 = [1; 2]
  ∧ ¬ (∀ (l : list Z) (w : World Z Z), pulled (c l w).2 = pulled w).
Proof.
  intros c. split; [by vm_compute|].
  intros Hclaim. specialize (Hclaim [1; 2] fresh_world). by vm_compute in Hclaim.
Qed.

(** C2, amended.  Constructing any combinator other than [GroupSeq] does
    not drive its upstream sequence: it leaves the world as it is, but
    for the empty map that [DuplicateSeq] and [DeduplicationSeq]
    allocate; elements flow only when the returned sequence is driven.
    Constructing [GroupSeq] drains its whole source, and driving the
    sequence it returns takes nothing more from the source. *)
Theorem construction_takes_nothing_but_GroupSeq
    {V} `{Countable V} {E S T Regexp Hk} `{Dynamic S} `{Countable Hk}
    (MatchString : Regexp → string → bool) (Sum64 : V → Z)
    (range_map : nat → gmap Hk (list E) → list (Hk * list E))
    (s : Seq V E S) (sv gv : Seq V E V) (w : World V E) :
  (∀ fn, (FilterSeq s fn w).2 = w)
  ∧ (RemoveSeq sv gv w).2 = w
  ∧ (∀ pattern, (PatternSeq MatchString s pattern w).2 = w)
  ∧ (∀ pattern, (StringPatternSeq s pattern w).2 = w)
  ∧ (DuplicateSeq sv w).2
    = mkWorld (count_tables w ++ [∅]) (seen_sets w) (pulled w) (entropy w)
  ∧ (DeduplicationSeq sv w).2
    = mkWorld (count_tables w) (seen_sets w ++ [∅]) (pulled w) (entropy w)
  ∧ (HashSeq Sum64 sv w).2 = w
  ∧ (∀ fn, (ReplaceFuncSeq s fn w).2 = w)
  ∧ (∀ g, (ReplaceSeq sv g w).2 = w)
  ∧ (∀ fn : S → T, (ConvertSeq s fn w).2 = w)
  ∧ (AnySeq s w).2 = w
  ∧ (∀ (l : list E) (fn : E → Hk),
        let '(groups, w1) := GroupSeq range_map (Observed (Values l)) fn w in
        pulled w1 = pulled w ++ l
        ∧ pulled (Collect groups w1).2 = pulled w1).
Proof.
  repeat split; try done.
  intros l fn. unfold GroupSeq. unfold bind at 1.
  unfold Observed, Values. rewrite GroupSeq_loop. run_ret.
  split; [done|].
  unfold Collect, bind, next_entropy. by rewrite range_slice_collect.
Qed.

(** * Further properties of the code *)

(** ** The terminal operators over a whole source *)

Section MoreTerminal.
Context {V : Type} `{Countable V} {E : Type}.
#[local] Abbreviation W := (World V E).

Lemma concat_map_nil {A B} (l : list A) : concat (map (λ _, @nil B) l) = [].
Proof. induction l as [|a l IH]; simpl; done. Qed.

Lemma Int_add_exact (a b : Z) :
  - 2 ^ 63 ≤ a + b → a + b ≤ Int.max_int → Int.add a b = a + b.
Proof.
  unfold Int.add, Int.wrap, Int.max_int. intros. rewrite Z.mod_small; lia.
Qed.

Lemma CountSeq_loop {S} (obs : S → list E) (l : list S) (c : Z) (w : W) :
  0 ≤ c → c + Z.of_nat (length l) ≤ Int.max_int →
  range_slice l (λ v r, log_pulls (obs v) ;; ret (true, Int.add r 1)) c w
  = (c + Z.of_nat (length l), logged (concat (map obs l)) w).
Proof.
  set (body := λ v r, log_pulls (obs v) ;; ret (true, Int.add r 1)).
  revert c w. induction l as [|a l IH]; intros c w Hc Hlen.
  - simpl. rewrite logged_nil. unfold ret. f_equal. f_equal. lia.
  - simpl in Hlen. simpl. unfold bind at 1, body at 1, bind, log_pulls, ret.
    rewrite IH by (rewrite Int_add_exact; unfold Int.max_int in *; lia).
    rewrite logged_app, Int_add_exact by (unfold Int.max_int in *; lia).
    f_equal. lia.
Qed.

Lemma CountSeq_Values {S} (l : list S) (w : W) :
  Z.of_nat (length l) ≤ Int.max_int →
  CountSeq (Values l) w = (Z.of_nat (length l), w).
Proof.
  intros Hlen. unfold CountSeq, Values.
  erewrite range_slice_ext.
  - rewrite (CountSeq_loop (λ _, []) l 0 w) by lia.
    rewrite concat_map_nil, logged_nil. done.
  - intros v r w'. unfold bind, log_pulls. by rewrite logged_nil.
Qed.
End MoreTerminal.

(** X1. [CountSeq] never stops early: over a source of at most [max_int]
    elements it returns the number of elements, and the source has
    handed out every one of them. *)
Theorem CountSeq_counts_and_drains {V} `{Countable V} {S}
    (l : list S) (w : World V S) :
  Z.of_nat (length l) ≤ Int.max_int →
  CountSeq (Observed (Values l)) w = (Z.of_nat (length l), logged l w).
Proof.
  intros Hlen. unfold CountSeq, Observed, Values, log_pull.
  rewrite (CountSeq_loop (λ v, [v]) l 0 w) by lia.
  by rewrite concat_map_singleton.
Qed.

Lemma CountSeq_counts_and_drains_witness :
  Z.of_nat (length [7; 8; 9]) ≤ Int.max_int
  ∧ CountSeq (Observed (Values [7; 8; 9])) (fresh_world (V:=Z) (E:=Z))
    = (3, logged [7; 8; 9] fresh_world).
Proof.
  assert (Z.of_nat (length [7; 8; 9]) ≤ Int.max_int) as Hlen by (by vm_compute).
  split; [exact Hlen|].
  exact (CountSeq_counts_and_drains [7; 8; 9] fresh_world Hlen).
Defined.

(** X2. [IsEmptySeq] answers whether the source is empty and takes at
    most one element from it: the first one, when there is one. *)
Theorem IsEmptySeq_takes_at_most_one {V} `{Countable V} {S}
    (l : list S) (w : World V S) :
  IsEmptySeq (Observed (Values l)) w = (bool_decide (l = []), logged (take 1 l) w).
Proof.
  destruct l as [|x l]; simpl.
  - unfold IsEmptySeq, Observed, Values. simpl. by rewrite logged_nil.
  - by rewrite take_0.
Qed.

(** ** Grouping *)

Section Grouping.
Context {S K : Type} `{Countable K}.
Implicit Types (l : list S) (g : gmap K (list S)) (k : K) (fn : S → K).

Lemma grouped_lookup fn g l k :
  grouped fn g l !! k
  = if decide (filter (λ v, fn v = k) l = []) then g !! k
    else Some (default [] (g !! k) ++ filter (λ v, fn v = k) l).
Proof.
  revert g. induction l as [|a l IH]; intros g; [done|].
  change (grouped fn g (a :: l))
    with (grouped fn (<[fn a := default [] (g !! fn a) ++ [a]]> g) l).
  rewrite IH, filter_cons. destruct (decide (fn a = k)) as [<-|Hne].
  - rewrite lookup_insert_eq. simpl.
    case_decide as Hl; [by rewrite Hl | by rewrite <- (assoc_L (++))].
  - by rewrite lookup_insert_ne.
Qed.

Lemma Group_grouped l fn : Slices.Group l fn = grouped fn ∅ l.
Proof.
  unfold Slices.Group, grouped. generalize (∅ : gmap K (list S)) as g.
  induction l as [|a l IH]; intros g; [done|]. simpl. rewrite <- IH.
  by destruct (g !! fn a).
Qed.
End Grouping.

Lemma Group_lookup_filter {S K} `{Countable K} (s : list S) (f : S → K) (k : K) :
  Slices.Group s f !! k
  = if decide (filter (λ v, f v = k) s = []) then None
    else Some (filter (λ v, f v = k) s).
Proof. by rewrite Group_grouped, grouped_lookup, lookup_empty. Qed.

(** X3. [Group] returns the map that sends every key [k] that [f] takes
    on the slice to the elements with that key, in the order of the
    slice, and that has no other key: no group is empty, and every
    element of the slice is in the group of its key. *)
Theorem Group_lookup {S K} `{Countable K} (s : list S) (f : S → K) (k : K) :
  Slices.Group s f !! k
  = (if decide (filter (λ v, f v = k) s = []) then None
     else Some (filter (λ v, f v = k) s))
  ∧ (∀ g, Slices.Group s f !! k = Some g →
          g ≠ [] ∧ Forall (λ v, f v = k) g ∧ sublist g s)
  ∧ (∀ v, v ∈ s → ∃ g, Slices.Group s f !! f v = Some g ∧ v ∈ g).
Proof.
  split; [apply Group_lookup_filter|]. split.
  - intros g. rewrite Group_lookup_filter. case_decide; [done|].
    intros [= <-]. split; [done|]. split; [|apply sublist_filter].
    apply Forall_forall. by intros v [? _]%list_elem_of_filter.
  - intros v Hv. exists (filter (λ v', f v' = f v) s).
    assert (v ∈ filter (λ v', f v' = f v) s) as Hin
      by (by apply list_elem_of_filter).
    split; [|done]. rewrite Group_lookup_filter. case_decide as Hnil; [|done].
    rewrite Hnil in Hin. by apply elem_of_nil in Hin.
Qed.

Section GroupsOrder.
Context {V : Type} `{Countable V} {E S K : Type} `{Countable K}.

Lemma Groups_run (range_map : nat → gmap K (list S) → list (K * list S))
    (s : list S) (f : S → K) (w : World V E) :
  (Slices.Groups range_map s f w).1
  = (range_map (entropy w) (Slices.Group s f)).*2.
Proof.
  unfold Slices.Groups, GroupSeq. unfold bind at 1 2, Values.
  assert (∀ g, range_slice s (GroupSeq_body f) g w = (grouped f g s, w)) as ->.
  { clear. revert w. induction s as [|a s IH]; intros w g; [done|].
    simpl. unfold bind, GroupSeq_body, ret. by rewrite IH. }
  run_ret. unfold Collect, bind, next_entropy.
  by rewrite range_slice_collect, Group_grouped.
Qed.
End GroupsOrder.

(** X4. Whatever order the runtime enumerates the map in, [Groups] (and
    so a fresh [GroupSeq]) yields exactly the groups of [Group], each
    one once: a list is yielded exactly when it is the non-empty list of
    all elements of the slice, in their order, that have some key. *)
Theorem Groups_are_the_groups {V} `{Countable V} {E S K} `{Countable K}
    (range_map : nat → gmap K (list S) → list (K * list S))
    (s : list S) (f : S → K) (w : World V E) :
  (∀ seed groups, range_map seed groups ≡ₚ map_to_list groups) →
  (Slices.Groups range_map s f w).1 ≡ₚ (map_to_list (Slices.Group s f)).*2
  ∧ ∀ g, g ∈ (Slices.Groups range_map s f w).1
         ↔ g ≠ [] ∧ ∃ k, g = filter (λ v, f v = k) s.
Proof.
  intros Hperm. rewrite Groups_run.
  assert ((range_map (entropy w) (Slices.Group s f)).*2
          ≡ₚ (map_to_list (Slices.Group s f)).*2) as Hp by (by rewrite Hperm).
  split; [done|]. intros g. rewrite Hp, list_elem_of_fmap. split.
  - intros ([k g'] & -> & Hin%elem_of_map_to_list). simpl.
    rewrite Group_lookup_filter in Hin. case_decide; [done|].
    injection Hin as <-. split; [done | by exists k].
  - intros (Hne & k & ->). exists (k, filter (λ v, f v = k) s). split; [done|].
    apply elem_of_map_to_list. rewrite Group_lookup_filter. by rewrite decide_False.
Qed.

Lemma Groups_are_the_groups_witness :
  let in_order := λ (_ : nat) (m : gmap bool (list Z)), map_to_list m in
  let groups :=
    (Slices.Groups in_order [1; 2; 3; 4; 5; 6] Z.even (fresh_world (V:=Z) (E:=Z))).1 in
  (∀ seed m, in_order seed m ≡ₚ map_to_list m)
  ∧ groups ≡ₚ (map_to_list (Slices.Group [1; 2; 3; 4; 5; 6] Z.even)).*2
  ∧ ∀ g, g ∈ groups
         ↔ g ≠ [] ∧ ∃ k, g = filter (λ v, Z.even v = k) [1; 2; 3; 4; 5; 6].
Proof.
  intros in_order groups.
  assert (∀ seed m, in_order seed m ≡ₚ map_to_list m) as Hperm by done.
  split; [exact Hperm|].
  exact (Groups_are_the_groups in_order [1; 2; 3; 4; 5; 6] Z.even fresh_world Hperm).
Defined.

(** ** Pipelines and the helpers built on them *)

(** X5. Combinators compose lazily.  A [ConvertSeq] followed by a
    [FilterSeq] collects the converted elements that pass the filter; and
    whenever this pipeline yields something, a visitor that answers
    [false] is called once and the source hands out nothing behind the
    element that caused the call. *)
Theorem ConvertSeq_FilterSeq_pipeline {V} `{Countable V} {S T}
    (fn : S → T) (q : T → bool) (l : list S) (w : World V S) :
  let pipeline := λ s, s1 <- ConvertSeq s fn ;; FilterSeq s1 q in
  collected (pipeline (Values l)) w = List.filter q (map fn l)
  ∧ (collected (pipeline (Values l)) w ≠ [] → early_termination pipeline l w).
Proof.
  intros pipeline. split.
  - unfold collected, pipeline, ConvertSeq, FilterSeq, Collect, Values.
    unfold bind at 1 2. run_ret.
    match goal with
    | |- fst ?run = _ => assert (run = (List.filter q (map fn l), w)) as ->
    end; [|done].
    etrans; [apply (range_slice_map fn l
                      (λ v r, if q v then ret (true, r ++ [v]) else ret (true, r)))|].
    etrans; [apply (range_slice_filter q (map fn l) (λ v acc, ret (true, acc ++ [v])))|].
    apply range_slice_collect.
  - intros Hne.
    by apply (filter_map_early_termination pipeline
                (λ R yield v r, if q (fn v) then yield (fn v) r else ret (true, r))
                (λ v, if q (fn v) then Some (fn v) else None) l w);
      [| intros; destruct (q (fn v)) |].
Qed.

Lemma ConvertSeq_FilterSeq_pipeline_witness :
  let pipeline := λ s : Seq Z Z Z, s1 <- ConvertSeq s (λ v, v * 10) ;;
                                  FilterSeq s1 (λ v, 15 <? v) in
  collected (pipeline (Values [1; 2; 3])) fresh_world ≠ []
  ∧ early_termination pipeline [1; 2; 3] fresh_world.
Proof.
  intros pipeline.
  assert (collected (pipeline (Values [1; 2; 3])) fresh_world ≠ []) as Hne
    by (by vm_compute).
  split; [exact Hne|].
  exact (proj2 (ConvertSeq_FilterSeq_pipeline (λ v, v * 10) (λ v, 15 <? v)
                  [1; 2; 3] fresh_world) Hne).
Defined.

Section Wrappers.
Context {V : Type} `{Countable V} {E : Type}.
#[local] Abbreviation W := (World V E).

Lemma Select_run {S} (slice : list S) (f : S → bool) (w : W) :
  Slices.Select slice f w = (List.filter f slice, w).
Proof.
  unfold Slices.Select, FilterSeq, Collect, Values, bind at 1. run_ret.
  by rewrite range_slice_filter, range_slice_collect.
Qed.

Lemma Count_run {S} (slice : list S) (f : S → bool) (w : W) :
  Z.of_nat (length slice) ≤ Int.max_int →
  Slices.Count slice f w = (Z.of_nat (length (List.filter f slice)), w).
Proof.
  intros Hlen.
  assert (length (List.filter f slice) ≤ length slice)%nat
    by apply filter_restricts.
  rewrite <- (CountSeq_Values (List.filter f slice) w) by lia.
  unfold Slices.Count, FilterSeq, CountSeq, Values, bind at 1. run_ret.
  apply (range_slice_filter f slice (λ _ result, ret (true, Int.add result 1))).
Qed.

Lemma Empty_run {S} (slice : list S) (f : S → bool) (w : W) :
  Slices.Empty slice f w = (bool_decide (List.filter f slice = []), w).
Proof.
  unfold Slices.Empty, FilterSeq, IsEmptySeq, Values, bind at 1. run_ret.
  etrans; [apply (range_slice_filter f slice (λ _ _, ret (false, false)))|].
  by destruct (List.filter f slice).
Qed.
End Wrappers.

(** X6. [Select], [Count] and [Empty] agree: [Select] returns the
    elements that satisfy [f], in order; [Count] returns how many there
    are; [Empty] returns true exactly when there is none. *)
Theorem Select_Count_Empty_agree {V} `{Countable V} {E S}
    (slice : list S) (f : S → bool) (w : World V E) :
  Z.of_nat (length slice) ≤ Int.max_int →
  (Slices.Select slice f w).1 = List.filter f slice
  ∧ (Slices.Count slice f w).1 = Z.of_nat (length (Slices.Select slice f w).1)
  ∧ ((Slices.Empty slice f w).1 = true ↔ (Slices.Select slice f w).1 = [])
  ∧ ((Slices.Empty slice f w).1 = true ↔ Forall (λ v, f v = false) slice).
Proof.
  intros Hlen. rewrite Select_run, Count_run, Empty_run by done. simpl.
  rewrite !bool_decide_eq_true. repeat split; try done.
  - intros Hnil. apply Forall_forall. intros v Hv%list_elem_of_In.
    destruct (f v) eqn:Hf; [|done].
    assert (In v (List.filter f slice)) as Hin by (by apply filter_In).
    by rewrite Hnil in Hin.
  - intros Hall. clear Hlen.
    induction Hall as [|v l Hv _ IH]; [done|]. simpl. by rewrite Hv.
Qed.

Lemma Select_Count_Empty_agree_witness :
  let slice := [1; 2; 3; 4; 5] in
  let w := fresh_world (V:=Z) (E:=Z) in
  Z.of_nat (length slice) ≤ Int.max_int
  ∧ (Slices.Select slice Z.even w).1 = List.filter Z.even slice
  ∧ (Slices.Count slice Z.even w).1 = Z.of_nat (length (Slices.Select slice Z.even w).1)
  ∧ ((Slices.Empty slice Z.even w).1 = true ↔ (Slices.Select slice Z.even w).1 = [])
  ∧ ((Slices.Empty slice Z.even w).1 = true ↔ Forall (λ v, Z.even v = false) slice).
Proof.
  intros slice w.
  assert (Z.of_nat (length slice) ≤ Int.max_int) as Hlen by (by vm_compute).
  split; [exact Hlen|].
  exact (Select_Count_Empty_agree slice Z.even w Hlen).
Defined.

Section Uniqueness.
Context {V : Type} `{Countable V} {E : Type}.
#[local] Abbreviation W := (World V E).
Implicit Types (l seen : list V) (t : gmap V Z).

Lemma sightings_from_0_fresh seen l :
  NoDup l → (∀ x, x ∈ l → x ∉ seen) → sightings_from 0 seen l = l.
Proof.
  revert seen. induction l as [|x l IH]; intros seen Hnd Hseen; simpl; [done|].
  apply NoDup_cons in Hnd as [Hx Hnd].
  rewrite decide_True by (apply occurrences_zero, Hseen; left).
  f_equal. apply IH; [done|]. intros y Hy. rewrite not_elem_of_app. split.
  - apply Hseen. by right.
  - rewrite list_elem_of_singleton. by intros ->.
Qed.

Lemma sightings_from_sublist k seen l : sublist (sightings_from k seen l) l.
Proof.
  revert seen. induction l as [|x l IH]; intros seen; simpl; [constructor|].
  case_decide; by constructor.
Qed.

Lemma Deduplicate_run l (w : W) : (Slices.Deduplicate l w).1 = first_sightings l.
Proof. apply (DeduplicationSeq_collected l w). Qed.

(** The loop of [Duplicates] that fills [tmp]. *)
Lemma Duplicates_tally t seen l :
  tallies t seen → Z.of_nat (length seen + length l) < 2 ^ 63 →
  tallies (foldl (λ tmp v, match tmp !! v with
                           | Some cnt => <[v := Int.add cnt 1]> tmp
                           | None => <[v := 1]> tmp
                           end) t l) (seen ++ l).
Proof.
  revert t seen. induction l as [|a l IH]; intros t seen Ht Hlen; simpl.
  - by rewrite app_nil_r.
  - simpl in Hlen.
    replace (seen ++ a :: l) with ((seen ++ [a]) ++ l)
      by (by rewrite <- (assoc_L (++))).
    destruct (t !! a) as [cnt|] eqn:Ha.
    + destruct (tallies_again t seen a cnt Ht Ha) as (_ & _ & Ht'); [lia|].
      apply IH; [done|]. rewrite length_app. simpl. lia.
    + apply IH; [by apply tallies_new|]. rewrite length_app. simpl. lia.
Qed.

(** The loop of [Duplicates] that picks the keys counted more than once. *)
Lemma Duplicates_pick (kvs : list (V * Z)) (result : list V) :
  foldl (λ result '(k, v), if decide (1 < v) then result ++ [k] else result)
    result kvs
  = result ++ (filter (λ kv, 1 < kv.2) kvs).*1.
Proof.
  revert result. induction kvs as [|[k v] kvs IH]; intros result; simpl.
  - by rewrite app_nil_r.
  - rewrite IH, filter_cons. simpl. case_decide; [|done].
    by rewrite <- (assoc_L (++)).
Qed.
End Uniqueness.

(** X7. [Deduplicate] keeps the first occurrence of every value, in
    order: its result is a subsequence of the slice without repetitions
    and with the same members; a slice without repetitions comes back
    unchanged, and deduplicating the result again changes nothing. *)
Theorem Deduplicate_is_idempotent {V} `{Countable V} {E}
    (l : list V) (w w' : World V E) :
  let out := (Slices.Deduplicate l w).1 in
  sublist out l ∧ NoDup out ∧ (∀ v, v ∈ out ↔ v ∈ l)
  ∧ (NoDup l → out = l)
  ∧ (Slices.Deduplicate out w').1 = out.
Proof.
  simpl. rewrite !Deduplicate_run.
  split; [apply sightings_from_sublist|].
  split; [apply NoDup_sightings_from|].
  split; [apply elem_of_first_sightings|].
  assert (∀ k : list V, NoDup k → first_sightings k = k) as Hfresh.
  { intros k Hk. apply sightings_from_0_fresh; [done|].
    intros x _. apply not_elem_of_nil. }
  split; [apply Hfresh|]. apply Hfresh, NoDup_sightings_from.
Qed.

(** X8. [Duplicates] returns every value that occurs at least twice in
    the slice, each one once, in the order in which the runtime
    enumerates its map: up to that order, it returns what a fresh
    [DuplicateSeq] over the slice collects. *)
Theorem Duplicates_agrees_with_DuplicateSeq {V} `{Countable V} {E}
    (range_map : nat → gmap V Z → list (V * Z)) (slice : list V) (w : World V E) :
  (∀ seed tmp, range_map seed tmp ≡ₚ map_to_list tmp) →
  Z.of_nat (length slice) ≤ Int.max_int →
  let out := (Slices.Duplicates range_map slice w).1 in
  NoDup out
  ∧ (∀ v, v ∈ out ↔ (2 ≤ occurrences v slice)%nat)
  ∧ out ≡ₚ collected (DuplicateSeq (Values slice)) w.
Proof.
  intros Hperm Hlen. unfold Int.max_int in Hlen. simpl.
  rewrite DuplicateSeq_collected by lia.
  unfold Slices.Duplicates, bind, next_entropy. run_ret. simpl.
  rewrite (Duplicates_pick _ []). simpl.
  set (tmp := foldl _ ∅ slice).
  assert (tallies tmp slice) as Htmp.
  { apply (Duplicates_tally ∅ [] slice); [apply tallies_nil | simpl; lia]. }
  assert ((filter (λ kv, 1 < kv.2) (range_map (entropy w) tmp)).*1
          ≡ₚ (filter (λ kv, 1 < kv.2) (map_to_list tmp)).*1) as Hp
    by (by rewrite Hperm).
  assert (NoDup (filter (λ kv : V * Z, 1 < kv.2) (map_to_list tmp)).*1) as Hnd.
  { apply (sublist_NoDup _ (map_to_list tmp).*1);
      [apply (NoDup_fst_map_to_list tmp)|].
    apply fmap_sublist. apply sublist_filter. }
  assert (∀ v, v ∈ (filter (λ kv : V * Z, 1 < kv.2) (map_to_list tmp)).*1
               ↔ (2 ≤ occurrences v slice)%nat) as Hin.
  { intros v. rewrite list_elem_of_fmap. split.
    - intros ([k c] & -> & [Hc Hk%elem_of_map_to_list]%list_elem_of_filter).
      simpl in *. rewrite (Htmp k) in Hk. case_decide; [done|].
      injection Hk as <-. lia.
    - intros Hocc. exists (v, Z.of_nat (occurrences v slice)). split; [done|].
      apply list_elem_of_filter. split; [simpl; lia|].
      apply elem_of_map_to_list. rewrite (Htmp v). by rewrite decide_False by lia. }
  split; [by rewrite Hp|]. split; [intros v; by rewrite Hp|]. rewrite Hp.
  apply NoDup_Permutation; [done | apply NoDup_sightings_from |].
  intros v. by rewrite Hin, elem_of_second_sightings.
Qed.

Lemma Duplicates_agrees_with_DuplicateSeq_witness :
  let in_order := λ (_ : nat) (m : gmap Z Z), map_to_list m in
  let slice := [1; 2; 3; 2; 4; 1; 5] in
  let w := fresh_world (V:=Z) (E:=Z) in
  let out := (Slices.Duplicates in_order slice w).1 in
  (∀ seed tmp, in_order seed tmp ≡ₚ map_to_list tmp)
  ∧ Z.of_nat (length slice) ≤ Int.max_int
  ∧ NoDup out
  ∧ (∀ v, v ∈ out ↔ (2 ≤ occurrences v slice)%nat)
  ∧ out ≡ₚ collected (DuplicateSeq (Values slice)) w.
Proof.
  intros in_order slice w out.
  assert (∀ seed tmp, in_order seed tmp ≡ₚ map_to_list tmp) as Hperm by done.
  assert (Z.of_nat (length slice) ≤ Int.max_int) as Hlen by (by vm_compute).
  split; [exact Hperm|]. split; [exact Hlen|].
  exact (Duplicates_agrees_with_DuplicateSeq in_order slice w Hperm Hlen).
Defined.

(** ** [FilterStrings] and [RemoveStrings] *)

Section StringHelpers.
Context {V : Type} `{Countable V} {E : Type}.

Lemma range_slice_ext_in {A R} (l : list A) (y1 y2 : Visitor V E A R) r (w : World V E) :
  (∀ v, v ∈ l → ∀ r w, y1 v r w = y2 v r w) →
  range_slice l y1 r w = range_slice l y2 r w.
Proof.
  revert r w. induction l as [|a l IH]; intros r w Hy; [done|].
  simpl. unfold bind. rewrite Hy by left.
  destruct (y2 a r w) as [[[] r'] w']; [|done].
  apply IH. intros v Hv. apply Hy. by right.
Qed.

Lemma filter_partition {A} (p : A → bool) (l : list A) :
  List.filter p l ++ List.filter (λ v, negb (p v)) l ≡ₚ l.
Proof.
  induction l as [|a l IH]; [done|]. simpl. destruct (p a); simpl.
  - by rewrite IH.
  - by rewrite <- Permutation_middle, IH.
Qed.
End StringHelpers.

Lemma FilterStrings_run {E Regexp} (MatchString : Regexp → string → bool)
    (s : list string) (p : Regexp) (w : World string E) :
  Slices.FilterStrings MatchString s p w = (List.filter (MatchString p) s, w).
Proof.
  unfold Slices.FilterStrings, PatternSeq, Collect, Values, bind at 1. run_ret.
  etrans; [apply (range_slice_filter (MatchString p) s (λ v acc, ret (true, acc ++ [v])))|].
  apply range_slice_collect.
Qed.

Lemma RemoveStrings_run {E Regexp} (MatchString : Regexp → string → bool)
    (s : list string) (p : Regexp) (w : World string E) :
  Slices.RemoveStrings MatchString s p w
  = (List.filter (λ v, negb (MatchString p v)) s, w).
Proof.
  unfold Slices.RemoveStrings, PatternSeq, RemoveSeq, Collect, Values.
  unfold bind at 1 2. run_ret.
  etrans; [| apply (range_slice_collect
                     (List.filter (λ v, negb (MatchString p v)) s) [] w)].
  rewrite <- range_slice_filter. apply range_slice_ext_in.
  intros v1 Hv1 r w'. unfold bind at 1.
  assert (∀ w'' : World string E, range_slice s
            (λ v r0, if MatchString p (txt v)
                     then (λ v2 found, if decide (v1 = v2) then ret (false, true)
                                       else ret (true, found)) v r0
                     else ret (true, r0)) false w''
          = (MatchString p v1, w'')) as Hfound.
  { intros w''.
    etrans; [apply (range_slice_filter (MatchString p) s
                      (λ v2 found, if decide (v1 = v2) then ret (false, true)
                                   else ret (true, found)))|].
    rewrite range_slice_found. f_equal.
    destruct (MatchString p v1) eqn:Hm.
    - apply bool_decide_eq_true_2, list_elem_of_In, filter_In.
      split; [by apply list_elem_of_In | done].
    - apply bool_decide_eq_false_2. intros [_ Hm']%list_elem_of_In%filter_In.
      congruence. }
  rewrite (Hfound w'). by destruct (MatchString p v1).
Qed.

(** X9. [FilterStrings] returns the strings that the pattern matches and
    [RemoveStrings] the strings that it does not match, both in the order
    of the slice; together they hold the strings of the slice, each as
    often as the slice does. *)
Theorem FilterStrings_RemoveStrings_split {E Regexp}
    (MatchString : Regexp → string → bool)
    (s : list string) (p : Regexp) (w : World string E) :
  (Slices.FilterStrings MatchString s p w).1 = List.filter (MatchString p) s
  ∧ (Slices.RemoveStrings MatchString s p w).1
    = List.filter (λ v, negb (MatchString p v)) s
  ∧ (Slices.FilterStrings MatchString s p w).1
    ++ (Slices.RemoveStrings MatchString s p w).1 ≡ₚ s.
Proof.
  rewrite FilterStrings_run, RemoveStrings_run. simpl.
  split; [done|]. split; [done|]. apply filter_partition.
Qed.

(** ** [Delete] *)

Section Deleting.
Context {V : Type} `{EqDecision V}.
Implicit Types (slice : Slices.Slice V) (vals pre post rest : list V).

Lemma existsb_equal v vals :
  existsb (λ val, bool_decide (v = val)) vals = bool_decide (v ∈ vals).
Proof.
  induction vals as [|a vals IH]; simpl; [done|]. rewrite IH.
  destruct (decide (v = a)) as [->|Hne].
  - rewrite (bool_decide_eq_true_2 (a = a)) by done. simpl.
    symmetry. apply bool_decide_eq_true_2. left.
  - rewrite (bool_decide_eq_false_2 (v = a)) by done. simpl.
    apply bool_decide_ext. rewrite elem_of_cons.
    split; [by right | by intros [?|?]].
Qed.

Lemma Delete_loop_none slice vals i rest :
  Forall (λ v, v ∉ vals) rest → Slices.Delete_loop slice vals i rest = slice.
Proof.
  revert i. induction rest as [|v rest IH]; intros i Hrest; [done|].
  apply Forall_cons in Hrest as [Hv Hrest]. simpl.
  rewrite existsb_equal, bool_decide_eq_false_2 by done. by apply IH.
Qed.

Lemma Delete_loop_first slice vals i pre x post :
  Forall (λ v, v ∉ vals) pre → x ∈ vals →
  Slices.Delete_loop slice vals i (pre ++ x :: post)
  = Slices.append (Slices.reslice_to slice (i + length pre))
      (drop (S (i + length pre)) (Slices.elements slice)).
Proof.
  revert i. induction pre as [|v pre IH]; intros i Hpre Hx; simpl.
  - rewrite existsb_equal, bool_decide_eq_true_2 by done.
    by rewrite Nat.add_0_r.
  - apply Forall_cons in Hpre as [Hv Hpre].
    rewrite existsb_equal, bool_decide_eq_false_2 by done.
    rewrite IH by done. by rewrite Nat.add_succ_r.
Qed.
End Deleting.

(** X10. [Delete] removes one element at most: the first element of the
    slice that equals one of [vals]; later such elements stay.  Without
    such an element the slice is returned as it is.  Otherwise the
    elements behind the removed one are moved forward in the array
    behind the slice, so that the slice passed in, read again with its
    old length, shows the result followed by its old last element. *)
Theorem Delete_removes_first_match {V} `{EqDecision V}
    (slice : Slices.Slice V) (vals : list V) :
  (Slices.len slice ≤ length (Slices.array slice))%nat →
  (Forall (λ v, v ∉ vals) (Slices.elements slice) →
     Slices.Delete slice vals = slice)
  ∧ (∀ pre x post,
       Slices.elements slice = pre ++ x :: post →
       Forall (λ v, v ∉ vals) pre → x ∈ vals →
       Slices.elements (Slices.Delete slice vals) = pre ++ post
       ∧ Slices.elements
           (Slices.mkSlice (Slices.array (Slices.Delete slice vals))
              (Slices.len slice))
         = pre ++ post ++ [default x (last post)]).
Proof.
  intros Hcap. split; [apply Delete_loop_none|].
  intros pre x post Hel Hpre Hx.
  assert (drop (S (length pre)) (pre ++ x :: post) = post) as Hdrop.
  { replace (S (length pre)) with (length pre + 1)%nat by lia.
    rewrite <- drop_drop, drop_app_length. done. }
  assert (Slices.Delete slice vals
          = Slices.append (Slices.reslice_to slice (length pre)) post) as ->.
  { unfold Slices.Delete. rewrite Hel. rewrite Delete_loop_first by done.
    simpl. by rewrite Hel, Hdrop. }
  destruct slice as [arr n]. unfold Slices.elements in *. simpl in *.
  assert (length (pre ++ x :: post) = n) as Hn
    by (rewrite <- Hel, length_take; lia).
  rewrite length_app in Hn. simpl in Hn.
  assert (arr = pre ++ x :: post ++ drop n arr) as Harr.
  { rewrite <- (take_drop n arr) at 1. rewrite Hel.
    by rewrite <- (assoc_L (++)). }
  unfold Slices.append, Slices.reslice_to. simpl.
  rewrite decide_True by lia. simpl.
  assert (take (length pre) arr = pre) as Hpre'.
  { rewrite Harr. apply take_app_length. }
  assert (drop (length pre + length post) arr
          = default x (last post) :: drop n arr) as Hlast.
  { rewrite Harr at 1. rewrite <- drop_drop, drop_app_length.
    destruct post as [|y post _] using rev_ind.
    - done.
    - rewrite last_snoc. simpl. rewrite length_app. simpl.
      replace (x :: (post ++ [y]) ++ drop n arr)
        with ((x :: post) ++ y :: drop n arr)
        by (simpl; by rewrite <- (assoc_L (++))).
      replace (length post + 1)%nat with (length (x :: post))
        by (simpl; lia).
      by rewrite drop_app_length. }
  rewrite Hpre', Hlast. split.
  - rewrite (assoc_L (++) pre post). apply take_app_length'.
    by rewrite length_app.
  - rewrite (assoc_L (++) pre post), (cons_middle _ (pre ++ post)).
    rewrite (assoc_L (++) (pre ++ post)).
    rewrite take_app_length'; [by rewrite <- (assoc_L (++))|].
    rewrite !length_app. simpl. lia.
Qed.

Lemma Delete_removes_first_match_witness :
  let slice := Slices.mkSlice [1; 2; 3; 4; 3; 5] 6 in
  (Slices.len slice ≤ length (Slices.array slice))%nat
  ∧ Slices.elements slice = [1; 2] ++ 3 :: [4; 3; 5]
  ∧ Forall (λ v, v ∉ [3; 4]) [1; 2] ∧ 3 ∈ [3; 4]
  ∧ Slices.elements (Slices.Delete slice [3; 4]) = [1; 2] ++ [4; 3; 5]
  ∧ Slices.elements
      (Slices.mkSlice (Slices.array (Slices.Delete slice [3; 4])) (Slices.len slice))
    = [1; 2] ++ [4; 3; 5] ++ [default 3 (last [4; 3; 5])].
Proof.
  intros slice.
  assert (Slices.len slice ≤ length (Slices.array slice))%nat as Hcap by done.
  assert (Forall (λ v, v ∉ [3; 4]) [1; 2]) as Hpre
    by (apply (bool_decide_unpack _); by vm_compute).
  assert (3 ∈ [3; 4]) as Hx by left.
  split; [exact Hcap|]. split; [done|]. split; [exact Hpre|]. split; [exact Hx|].
  exact (proj2 (Delete_removes_first_match slice [3; 4] Hcap)
           [1; 2] 3 [4; 3; 5] eq_refl Hpre Hx).
Defined.

(** ** [Remap] and [ToMap] *)

Section LastWins.
Context {S K T : Type} `{Countable K}.

(** Of several elements with the same key, the last one stays. *)
Lemma foldl_insert_lookup (kf : S → K) (vf : S → T) (l : list S) (m : gmap K T) k :
  foldl (λ m v, <[kf v := vf v]> m) m l !! k
  = match last (filter (λ v, kf v = k) l) with
    | Some v => Some (vf v)
    | None => m !! k
    end.
Proof.
  induction l as [|a l IH] using rev_ind; [done|].
  rewrite foldl_app, filter_app, filter_cons, filter_nil. simpl.
  destruct (decide (kf a = k)) as [<-|Hne].
  - by rewrite last_snoc, lookup_insert_eq.
  - by rewrite app_nil_r, lookup_insert_ne.
Qed.

Lemma Remap_loop_ok {Err} (f : S → K * T * option Err) (l : list S) (m : gmap K T) :
  Forall (λ v, (f v).2 = None) l →
  Slices.Remap_loop f l m
  = (Some (foldl (λ m v, <[(f v).1.1 := (f v).1.2]> m) m l), None).
Proof.
  revert m. induction l as [|a l IH]; intros m Hl; [done|].
  apply Forall_cons in Hl as [Ha Hl]. simpl.
  destruct (f a) as [[k v] err]. simpl in *. subst err. by apply IH.
Qed.

Lemma Remap_loop_err {Err} (f : S → K * T * option Err) (q : list S) x rest e
    (m : gmap K T) :
  Forall (λ v, (f v).2 = None) q → (f x).2 = Some e →
  Slices.Remap_loop f (q ++ x :: rest) m = (None, Some e).
Proof.
  revert m. induction q as [|a q IH]; intros m Hq Hx; simpl.
  - destruct (f x) as [[k v] err]. simpl in *. by subst err.
  - apply Forall_cons in Hq as [Ha Hq].
    destruct (f a) as [[k v] err]. simpl in *. subst err. by apply IH.
Qed.
End LastWins.

(** X11. [Remap] fails fast and lets the last element win.  If [f]
    succeeds on every element, the map returned sends every key to the
    value of the last element with that key, and has no other key.  If
    [f] fails on some element, the error of the first such element is
    returned together with a nil map. *)
Theorem Remap_fail_fast_last_wins {S K T Err} `{Countable K}
    (slice : list S) (f : S → K * T * option Err) :
  (Forall (λ v, (f v).2 = None) slice →
     ∃ m, Slices.Remap slice f = (Some m, None)
          ∧ ∀ k, m !! k = (λ v, (f v).1.2)
                          <$> last (filter (λ v, (f v).1.1 = k) slice))
  ∧ (Exists (λ v, is_Some (f v).2) slice →
     ∃ q x rest e,
       slice = q ++ x :: rest ∧ Forall (λ v, (f v).2 = None) q
       ∧ (f x).2 = Some e
       ∧ Slices.Remap slice f = (None, Some e)).
Proof.
  split.
  - intros Hok. eexists. split; [by apply Remap_loop_ok|].
    intros k. rewrite (foldl_insert_lookup (λ v, (f v).1.1) (λ v, (f v).1.2)).
    by destruct (last _).
  - intros Hex. apply first_split in Hex as (q & x & rest & -> & Hq & [e He]);
      [| apply _].
    assert (Forall (λ v, (f v).2 = None) q) as Hq'.
    { eapply Forall_impl; [exact Hq|]. intros v Hv. simpl in Hv.
      destruct (f v).2; [by destruct Hv | done]. }
    exists q, x, rest, e. repeat split; [done..|].
    by apply Remap_loop_err.
Qed.

Lemma Remap_fail_fast_last_wins_witness :
  let f := λ v : Z, if decide (v < 0) then ("", 0, Some "negative input")
                    else ("same_key", v, None) in
  (Forall (λ v, (f v).2 = None) [1; 2; 3]
   ∧ ∃ m, Slices.Remap [1; 2; 3] f = (Some m, None)
          ∧ ∀ k, m !! k = (λ v, (f v).1.2)
                          <$> last (filter (λ v, (f v).1.1 = k) [1; 2; 3]))
  ∧ (Exists (λ v, is_Some (f v).2) [1; -2; 3]
     ∧ ∃ q x rest e,
         [1; -2; 3] = q ++ x :: rest ∧ Forall (λ v, (f v).2 = None) q
         ∧ (f x).2 = Some e
         ∧ Slices.Remap [1; -2; 3] f = (None, Some e)).
Proof.
  intros f.
  assert (Forall (λ v, (f v).2 = None) [1; 2; 3]) as Hok
    by (by repeat constructor).
  assert (Exists (λ v, is_Some (f v).2) [1; -2; 3]) as Hex
    by (apply Exists_cons_tl, Exists_cons_hd; by eexists).
  split; (split; [done|]).
  - exact (proj1 (Remap_fail_fast_last_wins [1; 2; 3] f) Hok).
  - exact (proj2 (Remap_fail_fast_last_wins [1; -2; 3] f) Hex).
Defined.

(** X12. [ToMap] sends every key that [f] takes on the slice to the last
    element with that key, which is the last element of the group that
    [Group] makes for the key, and has no other key. *)
Theorem ToMap_keeps_the_last {S K} `{Countable K}
    (slice : list S) (f : S → K) (k : K) :
  Slices.ToMap slice f !! k = last (filter (λ v, f v = k) slice)
  ∧ Slices.ToMap slice f !! k = Slices.Group slice f !! k ≫= last
  ∧ ∀ v, Slices.ToMap slice f !! k = Some v → f v = k ∧ v ∈ slice.
Proof.
  assert (Slices.ToMap slice f !! k = last (filter (λ v, f v = k) slice)) as Hlast.
  { unfold Slices.ToMap. rewrite (foldl_insert_lookup f (λ v, v)).
    by destruct (last _). }
  split; [done|]. split.
  - rewrite Hlast, Group_lookup_filter. by case_decide as Hnil; [rewrite Hnil|].
  - intros v. rewrite Hlast. intros Hv.
    assert (v ∈ filter (λ v, f v = k) slice) as Hin.
    { apply last_Some in Hv as [l' ->]. set_solver. }
    by apply list_elem_of_filter in Hin.
Qed.

(** ** [Chunks] and [Pairs] *)

Section Chunking.
Context {A : Type}.
Implicit Types (s c : list A) (n fuel : nat).

Lemma Chunk_list_concat fuel n s :
  (0 < n)%nat → (length s ≤ fuel)%nat → concat (Slices.Chunk_list fuel n s) = s.
Proof.
  intros Hn. revert s. induction fuel as [|fuel IH]; intros s Hs.
  - destruct s; [done | simpl in Hs; lia].
  - destruct s as [|x s]; [done|].
    change (Slices.Chunk_list (S fuel) n (x :: s))
      with (take n (x :: s) :: Slices.Chunk_list fuel n (drop n (x :: s))).
    simpl concat. rewrite IH; [apply take_drop|].
    rewrite length_drop. simpl in *. lia.
Qed.

Lemma Chunk_list_sizes fuel n s i c :
  (0 < n)%nat →
  Slices.Chunk_list fuel n s !! i = Some c →
  c ≠ [] ∧ (length c ≤ n)%nat
  ∧ ((S i < length (Slices.Chunk_list fuel n s))%nat → length c = n).
Proof.
  intros Hn. revert s i. induction fuel as [|fuel IH]; intros s i Hc.
  - by destruct s.
  - destruct s as [|x s]; [done|].
    change (Slices.Chunk_list (S fuel) n (x :: s))
      with (take n (x :: s) :: Slices.Chunk_list fuel n (drop n (x :: s))) in *.
    destruct i as [|i]; simpl in Hc.
    + injection Hc as <-. split; [by destruct n; [lia|]|].
      rewrite length_take. split; [lia|]. simpl length. intros Hmore.
      destruct (decide (n ≤ length s))%nat as [|Hshort]; [lia|].
      rewrite drop_ge in Hmore by (simpl; lia).
      destruct fuel; simpl in Hmore; lia.
    + destruct (IH _ _ Hc) as (? & ? & Hfull). split; [done|]. split; [done|].
      intros Hmore. apply Hfull. simpl in Hmore. lia.
Qed.
End Chunking.

(** X13. [Chunks] cuts the slice into pieces and loses nothing: the
    pieces put together give the slice back, and no piece is empty.  For
    a size of at least 1 every piece has at most [size] elements and
    every piece but the last exactly [size]; for a smaller size the whole
    slice is the only piece (and an empty slice has none). *)
Theorem Chunks_cut_the_slice {V} `{Countable V} {E A}
    (slice : list A) (size : Z) (w : World V E) :
  let out := (Slices.Chunks slice size w).1 in
  concat out = slice
  ∧ Forall (λ c, c ≠ []) out
  ∧ (1 ≤ size →
     ∀ i c, out !! i = Some c →
            (length c ≤ Z.to_nat size)%nat
            ∧ ((S i < length out)%nat → length c = Z.to_nat size))
  ∧ (size < 1 → out = if decide (slice = []) then [] else [slice]).
Proof.
  simpl. unfold Slices.Chunks. destruct (decide (size < 1)) as [Hsize|Hsize].
  - destruct slice as [|x slice]; simpl.
    + split; [done|]. split; [constructor|]. split; [lia | done].
    + rewrite app_nil_r. split; [done|]. split; [by repeat constructor|].
      split; [lia | done].
  - unfold Slices.Chunk. rewrite Collect_Values. simpl.
    assert (0 < Z.to_nat size)%nat as Hn by lia.
    split; [by apply Chunk_list_concat|]. split; [|split; [|lia]].
    + apply Forall_lookup. intros i c Hc.
      by destruct (Chunk_list_sizes _ _ _ _ _ Hn Hc).
    + intros _ i c Hc. by destruct (Chunk_list_sizes _ _ _ _ _ Hn Hc) as (_ & ? & ?).
Qed.

Lemma Chunks_cut_the_slice_witness :
  let out := (Slices.Chunks [1; 2; 3; 4; 5] 2 (fresh_world (V:=Z) (E:=Z))).1 in
  1 ≤ 2
  ∧ out = [[1; 2]; [3; 4]; [5]]
  ∧ ∀ i c, out !! i = Some c →
           (length c ≤ Z.to_nat 2)%nat
           ∧ ((S i < length out)%nat → length c = Z.to_nat 2).
Proof.
  intros out. assert (1 ≤ 2) as Hsize by lia.
  split; [exact Hsize|]. split; [done|].
  destruct (Chunks_cut_the_slice [1; 2; 3; 4; 5] 2 (fresh_world (V:=Z) (E:=Z)))
    as (_ & _ & Hsizes & _).
  exact (Hsizes Hsize).
Defined.

Section PairingFacts.
Context {T : Type}.
Variable zero_value : T.
Implicit Types (values : list T) (result : list (T * T)).

Lemma Pairs_loop_run fuel values (i : Z) result :
  Z.of_nat (length values) < Int.max_int →
  0 ≤ i ≤ Z.of_nat (length values) + 1 →
  Z.of_nat (length values) - i + 1 < 2 * Z.of_nat fuel →
  ∃ more pad,
    Slices.Pairs_loop zero_value fuel values i result = Some (result ++ more)
    ∧ concat (map (λ p, [p.1; p.2]) more) = drop (Z.to_nat i) values ++ pad
    ∧ (pad = [] ∨ pad = [zero_value]).
Proof.
  intros Hmax. revert i result.
  induction fuel as [|fuel IH]; intros i result Hi Hfuel; [lia|].
  simpl. destruct (decide (i < Z.of_nat (length values))) as [Hlt|Hge].
  - rewrite decide_True by lia.
    assert (Int.add i 1 = i + 1) as ->
      by (apply Int_add_exact; unfold Int.max_int in *; lia).
    assert (Int.add i 2 = i + 2) as ->
      by (apply Int_add_exact; unfold Int.max_int in *; lia).
    destruct (values !! Z.to_nat i) as [key|] eqn:Hkey;
      [| apply lookup_ge_None in Hkey; lia].
    destruct (decide (i + 1 < Z.of_nat (length values))) as [Hlt'|Hlast].
    + destruct (values !! Z.to_nat (i + 1)) as [value|] eqn:Hvalue;
        [| apply lookup_ge_None in Hvalue; lia].
      destruct (IH (i + 2) (result ++ [(key, value)])) as (more & pad & -> & Hflat & Hpad);
        [lia.. |].
      exists ((key, value) :: more), pad. split; [by rewrite <- (assoc_L (++))|].
      split; [|done]. simpl. rewrite Hflat.
      rewrite (drop_S values key (Z.to_nat i)) by done.
      replace (Z.to_nat (i + 1)) with (S (Z.to_nat i)) in Hvalue by lia.
      rewrite (drop_S values value (S (Z.to_nat i))) by done.
      by replace (Z.to_nat (i + 2)) with (S (S (Z.to_nat i))) by lia.
    + destruct (IH (i + 2) (result ++ [(key, zero_value)]))
        as (more & pad & -> & Hflat & Hpad); [lia.. |].
      rewrite drop_ge in Hflat by lia.
      assert (more = []) as ->.
      { destruct more as [|p more]; [done|]. simpl in Hflat.
        destruct Hpad as [-> | ->]; discriminate. }
      exists [(key, zero_value)], [zero_value].
      split; [by rewrite app_nil_r|].
      split; [|by right]. simpl.
      rewrite (drop_S values key (Z.to_nat i)) by done.
      by rewrite drop_ge by lia.
  - exists [], []. rewrite app_nil_r. split; [done|]. split; [|by left].
    simpl. by rewrite drop_ge by lia.
Qed.
End PairingFacts.

(** X14. [Pairs] pairs the values up in order and loses none: read pair
    by pair its result is the values again, followed by the zero value
    when their number is odd; it has half as many pairs as there are
    values, rounded up, and it never indexes outside the slice. *)
Theorem Pairs_pair_up {T} (zero_value : T) (values : list T) :
  Z.of_nat (length values) < Int.max_int →
  ∃ pairs pad,
    Slices.Pairs zero_value values = Some pairs
    ∧ concat (map (λ p, [p.1; p.2]) pairs) = values ++ pad
    ∧ (pad = [] ∨ pad = [zero_value])
    ∧ (2 * length pairs = length values + length pad)%nat.
Proof.
  intros Hmax.
  destruct (Pairs_loop_run zero_value (S (length values)) values 0 [])
    as (pairs & pad & Hrun & Hflat & Hpad); [done | lia | lia |].
  exists pairs, pad. split; [done|]. split; [done|]. split; [done|].
  rewrite <- length_app. change (Z.to_nat 0) with 0%nat in Hflat.
  rewrite drop_0 in Hflat. rewrite <- Hflat.
  clear. induction pairs as [|p pairs IH]; simpl; [done|]. simpl in IH. lia.
Qed.

Lemma Pairs_pair_up_witness :
  Z.of_nat (length [1; 2; 3]) < Int.max_int
  ∧ ∃ pairs pad,
      Slices.Pairs 0 [1; 2; 3] = Some pairs
      ∧ concat (map (λ p, [p.1; p.2]) pairs) = [1; 2; 3] ++ pad
      ∧ (pad = [] ∨ pad = [0])
      ∧ (2 * length pairs = length [1; 2; 3] + length pad)%nat.
Proof.
  assert (Z.of_nat (length [1; 2; 3]) < Int.max_int) as Hmax by (by vm_compute).
  split; [exact Hmax|]. exact (Pairs_pair_up 0 [1; 2; 3] Hmax).
Defined.

(** ** [SumSeq] over [int]s *)

Lemma Int_wrap_add (a b : Z) : Int.wrap (Int.wrap a + b) = Int.wrap (a + b).
Proof.
  unfold Int.wrap. f_equal.
  replace ((a + 2 ^ 63) mod 2 ^ 64 - 2 ^ 63 + b + 2 ^ 63)
    with ((a + 2 ^ 63) mod 2 ^ 64 + b) by lia.
  rewrite Zplus_mod_idemp_l. f_equal. lia.
Qed.

Lemma foldl_Int_add (c : Z) (l : list Z) :
  foldl Int.add (Int.wrap c) l = Int.wrap (c + foldr Z.add 0 l).
Proof.
  revert c. induction l as [|a l IH]; intros c; simpl.
  - by rewrite Z.add_0_r.
  - unfold Int.add at 2. rewrite Int_wrap_add, IH. f_equal. lia.
Qed.

Lemma foldr_add_Permutation (l l' : list Z) :
  l ≡ₚ l' → foldr Z.add 0 l = foldr Z.add 0 l'.
Proof. induction 1; simpl; lia. Qed.

(** X15. For [int]s the result of [SumSeq] is the sum of the elements
    reduced to 64 bits, whatever [slices.Sort] does with them: an
    overflow in the middle of the additions does not change the result. *)
Theorem SumSeq_int_is_the_wrapped_sum {V} `{Countable V} {E}
    (Sort : list Z → list Z) (l : list Z) (w : World V E) :
  (∀ l, Sort l ≡ₚ l) →
  SumSeq Sort (Values l) w = (Int.wrap (foldr Z.add 0 l), w).
Proof.
  intros Hperm. rewrite SumSeq_Values. f_equal.
  change (zero (T:=Z)) with (Int.wrap 0). change (plus (T:=Z)) with Int.add.
  rewrite foldl_Int_add. f_equal. simpl. by apply foldr_add_Permutation.
Qed.

Lemma SumSeq_int_is_the_wrapped_sum_witness :
  let Sort := merge_sort (ascending (T:=Z)) in
  (∀ l, Sort l ≡ₚ l)
  ∧ SumSeq (V:=Z) (E:=Z) Sort (Values [Int.max_int; 1; -1]) fresh_world
    = (Int.max_int, fresh_world).
Proof.
  intros Sort.
  assert (∀ l, Sort l ≡ₚ l) as Hperm by apply merge_sort_Permutation.
  split; [exact Hperm|].
  exact (SumSeq_int_is_the_wrapped_sum Sort [Int.max_int; 1; -1] fresh_world Hperm).
Defined.
